(** * Pokedex explorer: ingestion pipeline and query engine

    A shallow embedding of the dataset builder ([fetchEvolutionChain],
    [fetchLocations], [extractMoves], the worker pool of [main]), of the
    move table of the detail page, and of the query engine
    ([filterAndSortPokemon], [getAutocompleteSuggestions]).

    Part I holds the definitions, Part II the lemmas and theorems. *)

From Stdlib Require Import ZArith Ascii String.
From stdpp Require Import base tactics option list sorting strings pretty.

Local Open Scope Z_scope.

(** * Part I: definitions *)

(** ** [Array.prototype.sort] with a comparator

    ECMAScript fixes the result of [sort] for a consistent comparator: the
    sort is stable, [a] ends before [b] when [cmp a b < 0] and elements that
    compare equal keep their relative order.  Insertion from the right is the
    executable model: an element is put in front of the first element of the
    already sorted tail that does not have to precede it. *)
Section js_sort.
Context {A : Type}.
Variable cmp : A → A → Z.

Fixpoint insert_by (x : A) (l : list A) : list A :=
  match l with
  | [] => [x]
  | y :: l' => if cmp x y <=? 0 then x :: y :: l' else y :: insert_by x l'
  end.

Definition sort_by (l : list A) : list A := foldr insert_by [] l.
End js_sort.

(** Comparators of the shape [(a, b) => key(a) - key(b)]. *)
Definition by_key {A} (key : A → Z) (a b : A) : Z := key a - key b.
Definition key_le {A} (key : A → Z) (a b : A) : Prop := key a ≤ key b.

(** JavaScript truthiness of a string: every string but the empty one. *)
Definition truthy (s : string) : Prop := s ≠ ""%string.

Global Instance truthy_dec s : Decision (truthy s).
Proof. unfold truthy. apply _. Defined.

(** ** Records of the dataset

    The interfaces [PokemonAbility], [PokemonStat], [PokemonMove],
    [PokemonSpriteVariants], [PokemonEvolutionNode] and [PokemonEntry].
    Rocq has one name space for projections, so the [name] and [id] fields
    carry the record they belong to. *)

Record PokemonAbility := {
  ability_name : string;
  hidden : bool;
}.

Record PokemonStat := {
  stat_name : string;
  value : Z;
}.

Record PokemonMove := {
  move_name : string;
  method : string;
  levelLearnedAt : option Z;
}.

Record PokemonSpriteVariants := {
  sprite_default : option string;
  sprite_shiny : option string;
}.

Record PokemonEvolutionNode := {
  node_id : option Z;
  node_name : string;
  stage : nat;
}.

Record PokemonEntry := {
  entry_id : Z;
  entry_name : string;
  height : Z;
  weight : Z;
  baseExperience : Z;
  types : list string;
  abilities : list PokemonAbility;
  stats : list PokemonStat;
  moves : list PokemonMove;
  image : option string;
  spriteVariants : PokemonSpriteVariants;
  generation : option string;
  habitat : option string;
  isLegendary : bool;
  isMythical : bool;
  flavorText : string;
  evolutionChain : list PokemonEvolutionNode;
  locations : list string;
}.

Inductive LegendaryFilter := LegAll | LegLegendary | LegMythical | LegNonLegendary.

Inductive SortOption := NameAsc | IdAsc | IdDesc | StatTotalDesc.

(** [generation: string | 'all'] *)
Inductive GenerationFilter := GenAll | GenTag (tag : string).

Record FilterState := {
  searchTerm : string;
  selectedTypes : list string;
  filter_generation : GenerationFilter;
  legendary : LegendaryFilter;
  sortBy : SortOption;
}.

Global Instance PokemonMove_eq_dec : EqDecision PokemonMove.
Proof. solve_decision. Defined.

Global Instance PokemonEvolutionNode_eq_dec : EqDecision PokemonEvolutionNode.
Proof. solve_decision. Defined.

(** ** [extractMoves]

    The part of the upstream move objects that [extractMoves] reads.  A field
    that may be absent (or [null]) upstream is an [option]. *)
Record VersionGroupDetail := {
  move_learn_method : option string;   (* detail.move_learn_method?.name *)
  level_learned_at : option Z;         (* detail.level_learned_at *)
}.

Record RawMove := {
  raw_name : option string;                          (* move.move?.name *)
  version_group_details : option (list VersionGroupDetail);
}.

Definition is_level_up (d : VersionGroupDetail) : bool :=
  match move_learn_method d with
  | Some m => String.eqb m "level-up"
  | None => false
  end.

(** [move.version_group_details?.find((detail) => ... === 'level-up')] *)
Definition level_up_detail (move : RawMove) : option VersionGroupDetail :=
  match version_group_details move with
  | Some ds => List.find is_level_up ds
  | None => None
  end.

(** [move.version_group_details?.[0]?.move_learn_method?.name] *)
Definition first_method (move : RawMove) : option string :=
  match version_group_details move with
  | Some (d :: _) => move_learn_method d
  | _ => None
  end.

(** The callback of [moves.map] in [extractMoves]. *)
Definition to_move (move : RawMove) : PokemonMove :=
  let details := level_up_detail move in
  {| move_name := default ""%string (raw_name move);
     method :=
       match details with
       | Some {| move_learn_method := Some m |} => m
       | _ => default "unknown"%string (first_method move)
       end;
     levelLearnedAt :=
       match details with
       | Some d => level_learned_at d
       | None => None
       end |}.

Definition has_level (m : PokemonMove) : Prop := is_Some (levelLearnedAt m).
Definition no_level (m : PokemonMove) : Prop := levelLearnedAt m = None.

(** [move.levelLearnedAt ?? 0] *)
Definition level_key (m : PokemonMove) : Z := default 0 (levelLearnedAt m).

(** [levelUpMoves]: the mapped moves that pass [.filter((move) => move.name)]. *)
Definition levelUpMoves (moves : list RawMove) : list PokemonMove :=
  filter (λ m, truthy (move_name m)) (to_move <$> moves).

Definition sortedLevelUp (moves : list RawMove) : list PokemonMove :=
  sort_by (by_key level_key) (filter has_level (levelUpMoves moves)).

Definition otherMoves (moves : list RawMove) : list PokemonMove :=
  take 20 (filter no_level (levelUpMoves moves)).

(** [None] is an argument that is not an array. *)
Definition extractMoves (moves : option (list RawMove)) : list PokemonMove :=
  match moves with
  | None => []
  | Some moves => take 30 (sortedLevelUp moves) ++ otherMoves moves
  end.

(** The reading under which every element of the input array takes part,
    whatever its name: levelled moves by level, at most 30, then the others,
    at most 20.  [extractMoves] is compared with it below. *)
Definition moves_by_level_of_all (moves : list RawMove) : list PokemonMove :=
  take 30 (sort_by (by_key level_key) (filter has_level (to_move <$> moves)))
  ++ take 20 (filter no_level (to_move <$> moves)).

(** ** The move table of the detail page ([PokemonDetailPage]) *)

Definition MOVES_DISPLAY_LIMIT : nat := 16.

Section detail_page.
(** [a.localeCompare(b)], the collation of the host. *)
Variable localeCompare : string → string → Z.

Definition by_name (a b : PokemonMove) : Z :=
  localeCompare (move_name a) (move_name b).

Definition page_levelUpMoves (moves : list PokemonMove) : list PokemonMove :=
  sort_by (by_key level_key) (filter has_level moves).

Definition additionalMoves (moves : list PokemonMove) : list PokemonMove :=
  sort_by by_name (filter no_level moves).

Definition combinedMoves (moves : list PokemonMove) : list PokemonMove :=
  take MOVES_DISPLAY_LIMIT (page_levelUpMoves moves ++ additionalMoves moves).
End detail_page.

(** Code-unit order on strings; it agrees with [localeCompare] on names made
    of lower-case ASCII letters, which is all the examples below need. *)
Definition code_unit_compare (a b : string) : Z :=
  match String.compare a b with
  | Lt => -1
  | Eq => 0
  | Gt => 1
  end.

(** Sample upstream moves for the examples. *)
Definition raw_level_up (n : option string) (lvl : Z) : RawMove :=
  {| raw_name := n;
     version_group_details :=
       Some [ {| move_learn_method := Some "level-up"%string;
                 level_learned_at := Some lvl |} ] |}.

Definition raw_machine (n : string) : RawMove :=
  {| raw_name := Some n;
     version_group_details :=
       Some [ {| move_learn_method := Some "machine"%string;
                 level_learned_at := Some 0 |} ] |}.

(** ** Effects of the ingestion script

    A computation leaves a trace of the requests it made and either returns
    or throws; an error is identified with its message.  [fetchJson] is the
    only source of requests; what the remote side answers is a parameter. *)
Inductive Event :=
  | EvFetch (url : string).

(** What [fetch(url)] followed by [response.json()] gives: a response whose
    [ok] is true and whose body parses to a value; a response whose [ok] is
    false, with its [status] and [statusText]; or a rejection (no connection,
    a URL that does not parse, a body that is not JSON) with the message of
    the error. *)
Inductive Response (D : Type) :=
  | Ok (body : D)
  | NotOk (status : Z) (statusText : string)
  | Rejected (message : string).
Arguments Ok {D} body.
Arguments NotOk {D} status statusText.
Arguments Rejected {D} message.

Inductive Completion (A : Type) :=
  | Returned (a : A)
  | Thrown (msg : string).
Arguments Returned {A} a.
Arguments Thrown {A} msg.

Definition IO (A : Type) : Type := list Event * Completion A.

Definition io_ret {A} (a : A) : IO A := ([], Returned a).

Definition io_bind {A B} (m : IO A) (f : A → IO B) : IO B :=
  match m with
  | (t, Returned a) => let '(t', r) := f a in (t ++ t', r)
  | (t, Thrown e) => (t, Thrown e)
  end.

Notation "'let*' x ':=' m 'in' k" := (io_bind m (λ x, k))
  (at level 10, x name, m at level 200, k at level 200, only parsing).

(** The message of the error that [fetchJson] throws for a response that is
    not ok: [`Failed to fetch ${url}: ${response.status} ${response.statusText}`]. *)
Definition fetch_error (url : string) (status : Z) (statusText : string)
    : string :=
  "Failed to fetch " +:+ url +:+ ": " +:+ pretty status +:+ " " +:+ statusText.

Definition fetchJson {D} (remote : string → Response D) (url : string)
    : IO D :=
  ([EvFetch url],
   match remote url with
   | Ok d => Returned d
   | NotOk status statusText => Thrown (fetch_error url status statusText)
   | Rejected message => Thrown message
   end).

(** A URL argument as the callers pass it: [x?.url] may be [undefined],
    the upstream field may be [null]. *)
Inductive JsUrl :=
  | UrlUndefined
  | UrlNull
  | UrlString (s : string).

(** [!url] is false exactly for a non-empty string. *)
Definition url_truthy (url : JsUrl) : option string :=
  match url with
  | UrlString s => if decide (truthy s) then Some s else None
  | _ => None
  end.

(** [formatName]: [name.replace(/-/g, ' ')]. *)
Fixpoint formatName (s : string) : string :=
  match s with
  | EmptyString => EmptyString
  | String c s' =>
      String (if Ascii.eqb c "-" then " "%char else c) (formatName s')
  end.

(** ** [fetchEvolutionChain] *)

(** [node.species]: a named resource, each field possibly absent. *)
Record Species := {
  species_name : option string;
  species_url : option string;
}.

#[local] Set Warnings "-register-all".

(** A node of the upstream evolution tree; [LinkNull] is a [null] or
    [undefined] node, an absent [evolves_to] is [None]. *)
Inductive ChainLink :=
  | LinkNull
  | Link (species : option Species) (evolves_to : option (list ChainLink)).

Definition is_digit (c : ascii) : bool :=
  let n := nat_of_ascii c in ((48 <=? n) && (n <=? 57))%nat.

Definition digit_value (c : ascii) : Z := Z.of_nat (nat_of_ascii c) - 48.

(** [Number] of a string of decimal digits, as the integer the digits
    spell.  [Number] gives exactly this integer below 2^53, which bounds
    every identifier of the catalogue; above it [Number] rounds to a double,
    which is not modelled, and what is proved of the identifier read from a
    URL is stated below 2^53. *)
Definition number_of_digits (ds : list ascii) : Z :=
  foldl (λ acc c, 10 * acc + digit_value c) 0 ds.

Fixpoint span_digits (l : list ascii) : list ascii * list ascii :=
  match l with
  | c :: l' =>
      if is_digit c then let '(ds, rest) := span_digits l' in (c :: ds, rest)
      else ([], l)
  | [] => ([], [])
  end.

(** [speciesUrl.match(/\/(\d+)\/?$/)] followed by [Number(idMatch[1])]: the
    URL read from its end is an optional slash, a non-empty run of digits and
    a slash. *)
Definition id_of_url (url : string) : option Z :=
  let r := rev (list_ascii_of_string url) in
  let r := match r with "/"%char :: r' => r' | _ => r end in
  match span_digits r with
  | ((_ :: _) as ds, "/"%char :: _) => Some (number_of_digits (rev ds))
  | _ => None
  end.

(** The object pushed for a node at a stage. *)
Definition chain_entry (species : option Species) (stage : nat)
    : PokemonEvolutionNode :=
  {| node_id := (species ≫= species_url) ≫= id_of_url;
     node_name := default ""%string (species ≫= species_name);
     stage := stage |}.

(** [traverse(node, stage)]; the array [chain] it pushes to is threaded
    through. *)
Fixpoint traverse (node : ChainLink) (stage : nat)
    (chain : list PokemonEvolutionNode) : list PokemonEvolutionNode :=
  match node with
  | LinkNull => chain
  | Link species evolves_to =>
      let chain := chain ++ [chain_entry species stage] in
      match evolves_to with
      | None => chain
      | Some evolutions =>
          (fix each (l : list ChainLink) (chain : list PokemonEvolutionNode) :=
             match l with
             | [] => chain
             | evolution :: l' => each l' (traverse evolution (S stage) chain)
             end) evolutions chain
      end
  end.

(** The response of the evolution-chain endpoint: [data.chain]. *)
Record EvolutionChainData := { chain : ChainLink }.

Definition fetchEvolutionChain
    (remote : string → Response EvolutionChainData) (url : JsUrl)
    : IO (list PokemonEvolutionNode) :=
  match url_truthy url with
  | None => io_ret []
  | Some u =>
      let* data := fetchJson remote u in
      io_ret (traverse (chain data) 0 [])
  end.

(** The depth-first preorder of a tree with the depth of every node, written
    independently of [traverse]: a node, then its subtrees from left to
    right, one level deeper. *)
Fixpoint preorder (depth : nat) (node : ChainLink)
    : list (option Species * nat) :=
  match node with
  | LinkNull => []
  | Link species evolves_to =>
      (species, depth) ::
      match evolves_to with
      | None => []
      | Some evolutions =>
          (fix children (l : list ChainLink) :=
             match l with
             | [] => []
             | c :: l' => preorder (S depth) c ++ children l'
             end) evolutions
      end
  end.

(** The number of (non-null) nodes of a tree. *)
Fixpoint tree_size (node : ChainLink) : nat :=
  match node with
  | LinkNull => 0
  | Link _ evolves_to =>
      S match evolves_to with
        | None => 0
        | Some evolutions =>
            (fix sum (l : list ChainLink) :=
               match l with
               | [] => 0
               | c :: l' => tree_size c + sum l'
               end)%nat evolutions
        end
  end.

(** ** [fetchLocations] *)

(** An encounter entry: [entry.location_area?.name]. *)
Record Encounter := { location_area_name : option string }.

(** [Set.prototype.add] on a set kept in insertion order. *)
Definition set_add (x : string) (s : list string) : list string :=
  if decide (x ∈ s) then s else s ++ [x].

(** The body of the [for] loop up to the size test. *)
Definition visit (entry : Encounter) (locations : list string) : list string :=
  match location_area_name entry with
  | Some locationName =>
      if decide (truthy locationName)
      then set_add (formatName locationName) locations
      else locations
  | None => locations
  end.

(** The [for ... of] loop with its [break].  The second component counts the
    entries the body ran on. *)
Fixpoint collect (data : list Encounter) (locations : list string)
    (visited : nat) : list string * nat :=
  match data with
  | [] => (locations, visited)
  | entry :: rest =>
      let locations := visit entry locations in
      if (12 <=? length locations)%nat then (locations, S visited)
      else collect rest locations (S visited)
  end.

Definition fetchLocations (remote : string → Response (list Encounter))
    (url : JsUrl) : IO (list string) :=
  match url_truthy url with
  | None => io_ret []
  | Some u =>
      let* data := fetchJson remote u in
      io_ret (fst (collect data [] 0))
  end.

(** The names an entry list contributes, before deduplication. *)
Definition area_names (data : list Encounter) : list string :=
  omap (λ entry,
          match location_area_name entry with
          | Some n => if decide (truthy n) then Some (formatName n) else None
          | None => None
          end) data.

(** The entries pushed for a preorder listing. *)
Definition entries_of (l : list (option Species * nat))
    : list PokemonEvolutionNode :=
  (λ sd, chain_entry sd.1 sd.2) <$> l.

(** Sample species for the examples. *)
Definition species_at (n url : string) : option Species :=
  Some {| species_name := Some n; species_url := Some url |}.

(** The chain of eevee with two of its branches and, between them, a node
    that has no species. *)
Definition eevee_chain : ChainLink :=
  Link (species_at "eevee" "https://pokeapi.co/api/v2/pokemon-species/133/")
    (Some [Link (species_at "vaporeon" "https://pokeapi.co/api/v2/pokemon-species/134/") (Some []);
           Link None None;
           Link (species_at "jolteon" "https://pokeapi.co/api/v2/pokemon-species/135/") None]).

(** The distinct elements of a list in order of first occurrence, written
    independently of the loop: an element, then what is left of the rest
    once its other occurrences are gone. *)
Fixpoint first_seen (l : list string) : list string :=
  match l with
  | [] => []
  | x :: l' => x :: filter (λ y, y ≠ x) (first_seen l')
  end.

Definition encounter (n : string) : Encounter :=
  {| location_area_name := Some n |}.

Definition sample_encounters : list Encounter :=
  [encounter "viridian-forest-area"; {| location_area_name := None |};
   encounter "viridian-forest-area"]
  ++ (encounter <$> ["a"; "b"; "c"; "d"; "e"; "f"; "g"; "h"; "i"; "j";
                     "k"; "l"; "m"]%string).

(** ** The worker pool of [main]

    [results] is [new Array(total)]: a slot is a hole until a worker writes
    a payload or [null] to it. *)
Inductive Slot :=
  | Hole
  | Null
  | Filled (payload : PokemonEntry).

(** What the pool does that can be observed from outside: the calls of
    [fetchPokemonDetail], the two [console.error] lines (they name the
    worker), the pauses and the progress line. *)
Inductive PoolEvent :=
  | Call (index : nat)
  | Failed (workerId index : nat)
  | Backoff (index : nat) (ms : Z)
  | RetryFailed (workerId index : nat)
  | Throttle (ms : Z)
  | Progress (completed : nat).

(** Where a worker is suspended.  [Created]: [worker(index + 1)] has not been
    called yet; [AwaitFetch], [AwaitRetry]: at the first, the second
    [await fetchPokemonDetail]; [AwaitBackoff]: at [await sleep(500)];
    [AwaitThrottle]: at [await sleep(100)]; [Finished]: left the loop. *)
Inductive Phase :=
  | Created
  | AwaitFetch (currentIndex : nat)
  | AwaitBackoff (currentIndex : nat)
  | AwaitRetry (currentIndex : nat)
  | AwaitThrottle
  | Finished.

Global Instance Phase_eq_dec : EqDecision Phase.
Proof. solve_decision. Defined.

Record Pool := mkPool {
  pointer : nat;
  completed : nat;
  results : list Slot;
  workers : list Phase;
  trace : list PoolEvent;
}.

Definition set_phase (w : nat) (ph : Phase) (st : Pool) : Pool :=
  mkPool (pointer st) (completed st) (results st) (<[w:=ph]> (workers st))
         (trace st).

Definition log (evs : list PoolEvent) (st : Pool) : Pool :=
  mkPool (pointer st) (completed st) (results st) (workers st)
         (trace st ++ evs).

(** [results[currentIndex] = slot] *)
Definition set_result (i : nat) (slot : Slot) (st : Pool) : Pool :=
  mkPool (pointer st) (completed st) (<[i:=slot]> (results st)) (workers st)
         (trace st).

Section pool.
(** [detail i k]: how the call number [k] (0: first, 1: retry) of
    [fetchPokemonDetail] for the entry at index [i] ends, with a payload or
    with an exception. *)
Variable detail : nat → nat → option PokemonEntry.
Variable total : nat.

(** The head of the loop: claim the next index and call
    [fetchPokemonDetail], or leave. *)
Definition enter_loop (w : nat) (st : Pool) : Pool :=
  if (pointer st <? total)%nat then
    set_phase w (AwaitFetch (pointer st))
      (log [Call (pointer st)]
         (mkPool (S (pointer st)) (completed st) (results st) (workers st)
                 (trace st)))
  else set_phase w Finished st.

(** From [completed += 1] to [await sleep(100)]. *)
Definition after_item (w : nat) (st : Pool) : Pool :=
  let completed := S (completed st) in
  set_phase w AwaitThrottle
    (log ((if decide (completed `mod` 10 = 0)%nat
           then [Progress completed] else []) ++ [Throttle 100])
       (mkPool (pointer st) completed (results st) (workers st) (trace st))).

(** The catch block up to [await sleep(500)]. *)
Definition on_failure (w i : nat) (st : Pool) : Pool :=
  set_phase w (AwaitBackoff i)
    (log [Failed (S w) i; Backoff i 500]
       (mkPool (pointer st `min` total) (completed st) (results st)
               (workers st) (trace st))).

(** Worker [w] runs from the point where it is suspended to its next
    [await].  [None]: there is no such worker, or it has finished. *)
Definition resume (w : nat) (st : Pool) : option Pool :=
  match workers st !! w with
  | None | Some Finished => None
  | Some Created | Some AwaitThrottle => Some (enter_loop w st)
  | Some (AwaitFetch i) =>
      match detail i 0 with
      | Some payload => Some (after_item w (set_result i (Filled payload) st))
      | None => Some (on_failure w i st)
      end
  | Some (AwaitBackoff i) =>
      Some (set_phase w (AwaitRetry i) (log [Call i] st))
  | Some (AwaitRetry i) =>
      match detail i 1 with
      | Some payload => Some (after_item w (set_result i (Filled payload) st))
      | None =>
          Some (after_item w
                  (set_result i Null (log [RetryFailed (S w) i] st)))
      end
  end.

(** The event loop resumes the workers in some order; an entry of the
    schedule that names no suspended worker is skipped. *)
Definition run (schedule : list nat) (st : Pool) : Pool :=
  foldl (λ st w, default st (resume w st)) st schedule.

(** [Math.min(CONCURRENCY, total)] as an array length. *)
Definition pool_size (CONCURRENCY : Z) : nat :=
  Z.to_nat (CONCURRENCY `min` Z.of_nat total).

Definition created (n : nat) : Pool :=
  mkPool 0 0 (replicate total Hole) (replicate n Created) [].

(** [Array.from({ length }, (_, index) => worker(index + 1))]: every worker
    runs up to its first [await] as soon as it is created. *)
Definition started (CONCURRENCY : Z) : Pool :=
  let n := pool_size CONCURRENCY in run (seq 0 n) (created n).

(** [Promise.all(workers)] is settled. *)
Definition all_finished (st : Pool) : Prop :=
  Forall (λ ph, ph = Finished) (workers st).

Global Instance all_finished_dec st : Decision (all_finished st).
Proof. unfold all_finished. apply _. Defined.

(** The order that always resumes the first worker that has not finished. *)
Definition next_pending (st : Pool) : option nat :=
  fst <$> list_find (λ ph, ph ≠ Finished) (workers st).

Fixpoint in_turn (fuel : nat) (st : Pool) : list nat :=
  match fuel with
  | O => []
  | S fuel' =>
      match next_pending st with
      | Some w => w :: in_turn fuel' (default st (resume w st))
      | None => []
      end
  end.

Definition phase_weight (ph : Phase) : nat :=
  match ph with
  | Finished => 0
  | Created | AwaitThrottle => 1
  | AwaitRetry _ => 2
  | AwaitBackoff _ => 3
  | AwaitFetch _ => 4
  end.

(** A bound on the number of resumptions a pool has left. *)
Definition budget (st : Pool) : nat :=
  (5 * (total - pointer st) + sum_list_with phase_weight (workers st))%nat.

(** What the claim promises for the item at an index: the payload of the
    first call, else that of the one retry, else the [null] placeholder. *)
Definition item_slot (i : nat) : Slot :=
  match detail i 0 with
  | Some payload => Filled payload
  | None =>
      match detail i 1 with
      | Some payload => Filled payload
      | None => Null
      end
  end.

(** ... and what is to be observed for it: one call; after a failure the
    error line, the pause of 500 ms and one more call; after a second
    failure the second error line and nothing more. *)
Definition item_events (workerId i : nat) : list PoolEvent :=
  Call i ::
  match detail i 0 with
  | Some _ => []
  | None =>
      [Failed workerId i; Backoff i 500; Call i]
      ++ match detail i 1 with
         | Some _ => []
         | None => [RetryFailed workerId i]
         end
  end.
End pool.

(** The item an event belongs to. *)
Definition event_item (e : PoolEvent) : option nat :=
  match e with
  | Call i | Failed _ i | Backoff i _ | RetryFailed _ i => Some i
  | Throttle _ | Progress _ => None
  end.

Definition events_of (i : nat) (tr : list PoolEvent) : list PoolEvent :=
  filter (λ e, event_item e = Some i) tr.

Definition phase_item (ph : Phase) : option nat :=
  match ph with
  | AwaitFetch i | AwaitBackoff i | AwaitRetry i => Some i
  | _ => None
  end.

(** What is to be observed for the item of a worker suspended inside the
    [try] or the [catch] block. *)
Definition phase_events (workerId i : nat) (ph : Phase) : list PoolEvent :=
  match ph with
  | AwaitFetch _ => [Call i]
  | AwaitBackoff _ => [Call i; Failed workerId i; Backoff i 500]
  | AwaitRetry _ => [Call i; Failed workerId i; Backoff i 500; Call i]
  | _ => []
  end.

Definition in_catch (ph : Phase) : Prop :=
  match ph with
  | AwaitBackoff _ | AwaitRetry _ => True
  | _ => False
  end.

(** The invariant of the pool: an index below the cursor is either held by
    exactly one worker, its slot still a hole, or done, its slot and events
    final; an index from the cursor on is untouched. *)
Record pool_inv (detail : nat → nat → option PokemonEntry) (total : nat)
    (st : Pool) : Prop := {
  inv_pointer : (pointer st ≤ total)%nat;
  inv_length : length (results st) = total;
  inv_held : ∀ w ph i,
    workers st !! w = Some ph → phase_item ph = Some i →
    (i < pointer st)%nat
    ∧ results st !! i = Some Hole
    ∧ events_of i (trace st) = phase_events (S w) i ph
    ∧ (in_catch ph → detail i 0%nat = None);
  inv_unique : ∀ w1 w2 ph1 ph2 i,
    workers st !! w1 = Some ph1 → workers st !! w2 = Some ph2 →
    phase_item ph1 = Some i → phase_item ph2 = Some i → w1 = w2;
  inv_claimed : ∀ i, (i < pointer st)%nat →
    (∃ w ph, workers st !! w = Some ph ∧ phase_item ph = Some i)
    ∨ (results st !! i = Some (item_slot detail i)
       ∧ ∃ w, events_of i (trace st) = item_events detail (S w) i);
  inv_unclaimed : ∀ i, (pointer st ≤ i)%nat →
    events_of i (trace st) = []
    ∧ ((i < total)%nat → results st !! i = Some Hole);
  inv_finished : ∀ w,
    workers st !! w = Some Finished → pointer st = total;
}.

(** ** [main] *)

Definition API_BASE : string := "https://pokeapi.co/api/v2".

(** An element of [list.results]. *)
Record IndexEntry := { index_name : string; index_url : string }.

(** The response of the index endpoint; [list.results] may be missing. *)
Record IndexList := { list_results : option (list IndexEntry) }.

Definition slot_payload (s : Slot) : option PokemonEntry :=
  match s with
  | Filled payload => Some payload
  | _ => None
  end.

(** [results.filter(Boolean).sort((a, b) => (a?.id ?? 0) - (b?.id ?? 0))]:
    a hole and [null] are dropped, a payload is an object and stays; the
    identifier of a payload is a number, so the comparator is the difference
    of the identifiers. *)
Definition filteredResults (results : list Slot) : list PokemonEntry :=
  sort_by (by_key entry_id) (omap slot_payload results).

(** How the process ends: its exit code and what [fs.writeFileSync] wrote to
    [OUTPUT_PATH], if it was called. *)
Record Process := {
  exit_code : Z;
  written : option (list PokemonEntry);
}.

Definition index_request (LIMIT : Z) : string :=
  API_BASE +:+ "/pokemon?limit=" +:+ pretty LIMIT.

(** [main] with its [catch] handler.  [None]: under the given schedule some
    worker is still suspended, the process has not ended yet. *)
Definition main (LIMIT CONCURRENCY : Z)
    (remote : string → Response IndexList)
    (detail : nat → nat → option PokemonEntry)
    (schedule : list nat) : option Process :=
  match fetchJson remote (index_request LIMIT) with
  | (_, Thrown _) => Some {| exit_code := 1; written := None |}
  | (_, Returned index) =>
      let entries := default [] (list_results index) in
      let total := length entries in
      let st := run detail total schedule (started detail total CONCURRENCY) in
      if decide (all_finished st)
      then Some {| exit_code := 0;
                   written := Some (filteredResults (results st)) |}
      else None
  end.

(** Sample records and a sample run for the examples: the entry at index 0
    is fetched at once, the one at index 1 on the retry, the one at index 2
    fails twice. *)
Definition sample_entry (n : Z) (nm : string) (tys : list string)
    (total_stat : Z) : PokemonEntry :=
  {| entry_id := n; entry_name := nm; height := 7; weight := 69;
     baseExperience := 64; types := tys; abilities := [];
     stats := [ {| stat_name := "hp"; value := total_stat |} ];
     moves := []; image := None;
     spriteVariants := {| sprite_default := None; sprite_shiny := None |};
     generation := Some "generation-i"%string; habitat := None;
     isLegendary := false; isMythical := false; flavorText := "";
     evolutionChain := []; locations := [] |}.

Definition bulbasaur := sample_entry 1 "bulbasaur" ["grass"; "poison"]%string 318.
Definition charmander := sample_entry 4 "charmander" ["fire"]%string 309.
Definition squirtle := sample_entry 7 "squirtle" ["water"]%string 314.

Definition sample_detail (i k : nat) : option PokemonEntry :=
  match i, k with
  | 0%nat, 0%nat => Some squirtle
  | 1%nat, 1%nat => Some bulbasaur
  | _, _ => None
  end.

Definition sample_index : IndexList :=
  {| list_results :=
       Some [ {| index_name := "squirtle"; index_url := "https://pokeapi.co/api/v2/pokemon/7/" |};
              {| index_name := "bulbasaur"; index_url := "https://pokeapi.co/api/v2/pokemon/1/" |};
              {| index_name := "charmander"; index_url := "https://pokeapi.co/api/v2/pokemon/4/" |} ] |}.

(** The workers are resumed in turn, in the order 1, 0, 1, 0, ... *)
Definition sample_schedule : list nat :=
  [1; 0; 1; 0; 1; 0; 1; 0; 1; 0; 1; 0]%nat.

(** ** The query engine

    The explorer imports [filterAndSortPokemon] and
    [getAutocompleteSuggestions] from "@/lib/filtering" and
    [getBaseStatTotal] from "@/lib/pokemonData".  Their definitions follow
    sections 4.1 and 4.2 of the specification. *)

(** [String.prototype.toLowerCase] on ASCII. *)
Definition lower_char (c : ascii) : ascii :=
  let n := nat_of_ascii c in
  if ((65 <=? n) && (n <=? 90))%nat then ascii_of_nat (n + 32) else c.

Fixpoint to_lower (s : string) : string :=
  match s with
  | EmptyString => EmptyString
  | String c s' => String (lower_char c) (to_lower s')
  end.

(** White space as [String.prototype.trim] sees it, on ASCII text: space,
    tab, line feed, vertical tab, form feed and carriage return.  The white
    space of the language outside ASCII (U+00A0, U+FEFF, U+2028 and others)
    is not modelled. *)
Definition is_space (c : ascii) : bool :=
  let n := nat_of_ascii c in ((n =? 32) || ((9 <=? n) && (n <=? 13)))%nat.

Fixpoint drop_space (l : list ascii) : list ascii :=
  match l with
  | c :: l' => if is_space c then drop_space l' else l
  | [] => []
  end.

Definition trim (s : string) : string :=
  string_of_list_ascii
    (rev (drop_space (rev (drop_space (list_ascii_of_string s))))).

Fixpoint starts_with (p s : string) : bool :=
  match p, s with
  | EmptyString, _ => true
  | String a p', String b s' => Ascii.eqb a b && starts_with p' s'
  | String _ _, EmptyString => false
  end.

(** [s.includes(q)] *)
Fixpoint includes (q s : string) : bool :=
  starts_with q s
  || match s with
     | EmptyString => false
     | String _ s' => includes q s'
     end.

(** Modelled from the spec: the normalized form of a search string
    (section 4.1: case-insensitive, whitespace-trimmed). *)
Definition normalize (term : string) : string := to_lower (trim term).

(** Modelled from the spec: [getBaseStatTotal], the sum of every entry of the
    stat list (section 4.1). *)
Definition getBaseStatTotal (stats : list PokemonStat) : Z :=
  foldr (λ s acc, value s + acc) 0 stats.

Section query_engine.
(** [a.localeCompare(b)] under the collation of the host. *)
Variable localeCompare : string → string → Z.

(** Modelled from the spec: the search clause of section 4.1; the term is
    a substring of the display name, of a type name or of an ability name,
    and the empty term matches everything. *)
Definition matches_search (term : string) (r : PokemonEntry) : bool :=
  let q := normalize term in
  String.eqb q ""
  || includes q (to_lower (entry_name r))
  || existsb (λ t, includes q (to_lower t)) (types r)
  || existsb (λ a, includes q (to_lower (ability_name a))) (abilities r).

(** Modelled from the spec: the type clause; the record must contain all
    the selected types. *)
Definition matches_types (selected : list string) (r : PokemonEntry) : bool :=
  forallb (λ t, bool_decide (t ∈ types r)) selected.

(** Modelled from the spec: the generation clause; exact tag match unless
    the selector is "all". *)
Definition matches_generation (g : GenerationFilter) (r : PokemonEntry)
    : bool :=
  match g with
  | GenAll => true
  | GenTag tag => bool_decide (generation r = Some tag)
  end.

(** Modelled from the spec: the legendary clause. *)
Definition matches_legendary (l : LegendaryFilter) (r : PokemonEntry)
    : bool :=
  match l with
  | LegAll => true
  | LegLegendary => isLegendary r
  | LegMythical => isMythical r
  | LegNonLegendary => negb (isLegendary r) && negb (isMythical r)
  end.

(** Modelled from the spec: the filtering predicate of
    [filterAndSortPokemon], all clauses AND-combined. *)
Definition matches (f : FilterState) (r : PokemonEntry) : bool :=
  matches_search (searchTerm f) r
  && matches_types (selectedTypes f) r
  && matches_generation (filter_generation f) r
  && matches_legendary (legendary f) r.

(** Modelled from the spec: the sort orderings; ties are broken by
    ascending identifier. *)
Definition then_by_id (primary : Z) (a b : PokemonEntry) : Z :=
  if primary =? 0 then entry_id a - entry_id b else primary.

(** Modelled from the spec: the comparator of [filterAndSortPokemon] for a
    sort option; numeric on the identifier, locale-aware and
    case-insensitive on the name, highest total stat first. *)
Definition comparator (s : SortOption) (a b : PokemonEntry) : Z :=
  match s with
  | IdAsc => entry_id a - entry_id b
  | IdDesc => entry_id b - entry_id a
  | NameAsc =>
      then_by_id (localeCompare (to_lower (entry_name a))
                                (to_lower (entry_name b))) a b
  | StatTotalDesc =>
      then_by_id (getBaseStatTotal (stats b) - getBaseStatTotal (stats a))
                 a b
  end.

(** Modelled from the spec: [filterAndSortPokemon] of "@/lib/filtering"
    (section 4.1): the records that pass every clause, in the order of the
    sort option; the input is not changed. *)
Definition filterAndSortPokemon (collection : list PokemonEntry)
    (f : FilterState) : list PokemonEntry :=
  sort_by (comparator (sortBy f)) (filter (λ r, matches f r) collection).
End query_engine.

(** Modelled from the spec: [getAutocompleteSuggestions] of
    "@/lib/filtering" (section 4.2): nothing for an empty or whitespace-only
    query, else the first [N] records, in the order of the collection, whose
    display name contains the normalized query. *)
Definition getAutocompleteSuggestions (collection : list PokemonEntry)
    (query : string) (N : nat) : list PokemonEntry :=
  let q := normalize query in
  if String.eqb q "" then []
  else take N (filter (λ r, includes q (to_lower (entry_name r))) collection).

Definition pikachu := sample_entry 25 "pikachu" ["electric"]%string 320.
Definition pidgey := sample_entry 16 "pidgey" ["normal"; "flying"]%string 251.
Definition pidgeotto := sample_entry 17 "pidgeotto" ["normal"; "flying"]%string 349.
Definition pinsir := sample_entry 127 "pinsir" ["bug"]%string 500.
Definition pichu := sample_entry 172 "pichu" ["electric"]%string 205.

Definition pi_fixture : list PokemonEntry :=
  [pidgey; pidgeotto; pikachu; pinsir; pichu].

Definition sample_filters (tys : list string) : FilterState :=
  {| searchTerm := ""; selectedTypes := tys; filter_generation := GenAll;
     legendary := LegAll; sortBy := IdAsc |}.

(** ** More of the detail page: [groupEvolutionChain]

    [groups] is a sparse array: an index that was never assigned is a hole
    ([None]), and an assignment past the end extends the array with holes. *)
Definition js_assign {A} (i : nat) (x : A) (arr : list (option A))
    : list (option A) :=
  if (i <? length arr)%nat then <[i:=Some x]> arr
  else arr ++ replicate (i - length arr) None ++ [Some x].

(** The callback of [chain.forEach]: create the group of the stage if there
    is none yet, then push the node to it. *)
Definition group_node (groups : list (option (list PokemonEvolutionNode)))
    (node : PokemonEvolutionNode)
    : list (option (list PokemonEvolutionNode)) :=
  let groups :=
    match groups !! stage node with
    | Some (Some _) => groups
    | _ => js_assign (stage node) [] groups
    end in
  match groups !! stage node with
  | Some (Some g) => <[stage node:=Some (g ++ [node])]> groups
  | _ => groups
  end.

Definition groupEvolutionChain (chain : list PokemonEvolutionNode)
    : list (option (list PokemonEvolutionNode)) :=
  foldl group_node [] chain.

(** The nodes of one stage, in the order of the chain. *)
Definition of_stage (k : nat) (chain : list PokemonEvolutionNode)
    : list PokemonEvolutionNode :=
  filter (λ n, stage n = k) chain.

(** The group a sparse array holds at an index; a hole and an index past the
    end hold none. *)
Definition group_at (groups : list (option (list PokemonEvolutionNode)))
    (k : nat) : list PokemonEvolutionNode :=
  match groups !! k with
  | Some (Some g) => g
  | _ => []
  end.


(** The state of [groups] after the nodes [seen]. *)
Definition grouped (groups : list (option (list PokemonEvolutionNode)))
    (seen : list PokemonEvolutionNode) : Prop :=
  length groups = max_list_with (λ n, S (stage n)) seen
  ∧ ∀ k, (k < length groups)%nat →
         groups !! k = Some (if decide (of_stage k seen = []) then None
                             else Some (of_stage k seen)).

(** ** The explorer ([PokemonExplorer]): filter state and keyboard *)

Definition DEFAULT_FILTERS : FilterState :=
  {| searchTerm := ""; selectedTypes := []; filter_generation := GenAll;
     legendary := LegAll; sortBy := IdAsc |}.

(** [{ ...prev, searchTerm: value }] and its like. *)
Definition with_searchTerm (value : string) (prev : FilterState) : FilterState :=
  {| searchTerm := value; selectedTypes := selectedTypes prev;
     filter_generation := filter_generation prev; legendary := legendary prev;
     sortBy := sortBy prev |}.

Definition with_selectedTypes (tys : list string) (prev : FilterState)
    : FilterState :=
  {| searchTerm := searchTerm prev; selectedTypes := tys;
     filter_generation := filter_generation prev; legendary := legendary prev;
     sortBy := sortBy prev |}.

(** The updater of [toggleType]. *)
Definition toggleType (type : string) (prev : FilterState) : FilterState :=
  let exists_ := bool_decide (type ∈ selectedTypes prev) in
  with_selectedTypes
    (if exists_ then filter (λ item, item ≠ type) (selectedTypes prev)
     else selectedTypes prev ++ [type])
    prev.

Global Instance LegendaryFilter_eq_dec : EqDecision LegendaryFilter.
Proof. solve_decision. Defined.

Global Instance SortOption_eq_dec : EqDecision SortOption.
Proof. solve_decision. Defined.

(** [filters.generation !== "all"]: the selector is a string, and the tag
    "all" is the selector 'all'. *)
Definition generation_is_all (g : GenerationFilter) : bool :=
  match g with
  | GenAll => true
  | GenTag tag => String.eqb tag "all"
  end.

(** Text of ASCII characters only; on such text [trim] and [is_space] are
    exactly [String.prototype.trim] and the white space of the language. *)
Definition is_ascii_text (s : string) : bool :=
  forallb (λ c, (nat_of_ascii c <? 128)%nat) (list_ascii_of_string s).

(** The ASCII characters that [String.prototype.trim] strips: space, tab,
    line feed, vertical tab, form feed and carriage return. *)
Definition ascii_white_space : list ascii :=
  [" "; "009"; "010"; "011"; "012"; "013"]%char.

(** A text of such characters only. *)
Definition blank (s : string) : Prop :=
  Forall (λ c, c ∈ ascii_white_space) (list_ascii_of_string s).

(** [activeFiltersCount]; [trim] takes white space as the ASCII white space
    characters. *)
Definition activeFiltersCount (filters : FilterState) : nat :=
  ((if decide (truthy (trim (searchTerm filters))) then 1 else 0)
   + length (selectedTypes filters)
   + (if generation_is_all (filter_generation filters) then 0 else 1)
   + (if decide (legendary filters = LegAll) then 0 else 1)
   + (if decide (sortBy filters = sortBy DEFAULT_FILTERS) then 0 else 1))%nat.

(** The state of the component that the handlers write. *)
Record Explorer := {
  filters : FilterState;
  autocompleteOpen : bool;
  highlightedIndex : option Z;
}.

Inductive Key := ArrowDown | ArrowUp | Enter | Escape | OtherKey.

(** [suggestions[index]] for a number: [undefined] unless the index is a
    position of the array. *)
Definition js_index {A} (l : list A) (index : Z) : option A :=
  if 0 <=? index then l !! Z.to_nat index else None.

Definition handleSuggestionSelect (pokemon : PokemonEntry) (st : Explorer)
    : Explorer :=
  {| filters := with_searchTerm (entry_name pokemon) (filters st);
     autocompleteOpen := false;
     highlightedIndex := None |}.

Definition clearFilters (st : Explorer) : Explorer :=
  {| filters := DEFAULT_FILTERS; autocompleteOpen := false;
     highlightedIndex := None |}.

Definition is_arrow (key : Key) : bool :=
  match key with
  | ArrowDown | ArrowUp => true
  | _ => false
  end.

(** [handleKeyDown] for the rendered [suggestions]: the state after all the
    updates the handler queues.  [%] is the remainder of JavaScript. *)
Definition handleKeyDown (suggestions : list PokemonEntry) (key : Key)
    (st : Explorer) : Explorer :=
  let n := Z.of_nat (length suggestions) in
  let opened := autocompleteOpen st || is_arrow key in
  if n =? 0 then
    {| filters := filters st; autocompleteOpen := opened;
       highlightedIndex := highlightedIndex st |}
  else
    match key with
    | ArrowDown =>
        {| filters := filters st; autocompleteOpen := opened;
           highlightedIndex :=
             Some match highlightedIndex st with
                  | None => 0
                  | Some prev => Z.rem (prev + 1) n
                  end |}
    | ArrowUp =>
        {| filters := filters st; autocompleteOpen := opened;
           highlightedIndex :=
             Some match highlightedIndex st with
                  | None => n - 1
                  | Some prev => if prev <=? 0 then n - 1 else prev - 1
                  end |}
    | Enter =>
        match highlightedIndex st with
        | Some index =>
            match js_index suggestions index with
            | Some selected => handleSuggestionSelect selected st
            | None => st
            end
        | None => st
        end
    | Escape =>
        {| filters := filters st; autocompleteOpen := false;
           highlightedIndex := None |}
    | OtherKey => st
    end.

(** The highlight is on no suggestion or on one of the [n] suggestions. *)
Definition highlight_ok (n : nat) (h : option Z) : Prop :=
  match h with
  | None => True
  | Some i => 0 ≤ i < Z.of_nat n
  end.

(** ** More about the worker pool *)

(** The workers that hold an item: between claiming an index and writing its
    slot. *)
Definition holding (ph : Phase) : nat :=
  match phase_item ph with
  | Some _ => 1
  | None => 0
  end.

Definition busy (ws : list Phase) : nat := sum_list_with holding ws.

(** A worker with a call of [fetchPokemonDetail] pending. *)
Definition is_fetching (ph : Phase) : bool :=
  match ph with
  | AwaitFetch _ | AwaitRetry _ => true
  | _ => false
  end.

Definition in_flight (ws : list Phase) : list Phase :=
  filter (λ ph, is_fetching ph) ws.

(** The arguments of the progress lines of a trace. *)
Definition progress_lines (tr : list PoolEvent) : list nat :=
  omap (λ e, match e with Progress n => Some n | _ => None end) tr.

(** The indices whose two calls both fail. *)
Definition failed_twice (detail : nat → nat → option PokemonEntry)
    (total : nat) : list nat :=
  filter (λ i, detail i 0%nat = None ∧ detail i 1%nat = None) (seq 0 total).

(** The counter invariant of the pool: every claimed index is either done
    and counted, or held by a worker; and a progress line was printed for
    every tenth completion. *)
Definition counted (st : Pool) : Prop :=
  (completed st + busy (workers st) = pointer st)%nat
  ∧ progress_lines (trace st)
    = (λ k, 10 * k)%nat <$> seq 1 (completed st / 10).

(** ** [normalizeText]

    White space is taken as the ASCII white space characters, which is what
    [\s] and [trim] see in a text of ASCII characters. *)

(** [replace(/\s+/g, ' ')]: every run of white space becomes one space.
    [in_run] tells that the character before was white space. *)
Fixpoint collapse_spaces (in_run : bool) (l : list ascii) : list ascii :=
  match l with
  | [] => []
  | c :: l' =>
      if is_space c then
        if in_run then collapse_spaces true l'
        else " "%char :: collapse_spaces true l'
      else c :: collapse_spaces false l'
  end.

(** [replace(/[\u000c\u000b\u0000]/g, ' ')] on one character. *)
Definition blank_control (c : ascii) : ascii :=
  let n := nat_of_ascii c in
  if ((n =? 12) || (n =? 11) || (n =? 0))%nat then " "%char else c.

(** [None] is a text that is [null] or [undefined]. *)
Definition normalizeText (text : option string) : string :=
  match text with
  | None => ""
  | Some t =>
      trim (string_of_list_ascii
              (blank_control <$> collapse_spaces false (list_ascii_of_string t)))
  end.

(** ** [extractStats], [extractAbilities], [fetchPokemonDetail]

    The parts of the upstream objects that the script reads. *)
Record RawStat := {
  raw_stat_name : option string;     (* stat.stat?.name *)
  base_stat : option Z;              (* stat.base_stat *)
}.

Record RawAbility := {
  raw_ability_name : option string;  (* ability.ability?.name *)
  is_hidden : bool;                  (* the truthiness of ability.is_hidden *)
}.

Record RawType := { raw_type_name : option string }.   (* type.type?.name *)

Record Sprites := {
  official_artwork : option string;  (* other?.['official-artwork']?.front_default *)
  front_default : option string;
  front_shiny : option string;
}.

Record FlavorTextEntry := {
  flavor_text : option string;
  flavor_language : option string;   (* entry.language?.name *)
}.

(** The response of the detail endpoint.  The fields that the payload copies
    as they are have the types of [PokemonEntry]. *)
Record BaseData := {
  base_id : Z;
  base_name : string;
  base_height : Z;
  base_weight : Z;
  base_experience : Z;
  base_types : option (list RawType);
  base_abilities : option (list RawAbility);
  base_stats : option (list RawStat);
  base_moves : option (list RawMove);
  sprites : option Sprites;
  base_species_url : JsUrl;          (* baseData.species?.url *)
  location_area_encounters : JsUrl;
}.

(** The response of the species endpoint. *)
Record SpeciesData := {
  evolution_chain_url : JsUrl;       (* speciesData.evolution_chain?.url *)
  flavor_text_entries : option (list FlavorTextEntry);
  generation_name : option string;   (* speciesData.generation?.name *)
  habitat_name : option string;      (* speciesData.habitat?.name *)
  is_legendary : bool;               (* the truthiness of the field *)
  is_mythical : bool;
}.

(** [None] is an argument that is not an array. *)
Definition extractStats (stats : option (list RawStat)) : list PokemonStat :=
  match stats with
  | None => []
  | Some stats =>
      (λ stat, {| stat_name := default ""%string (raw_stat_name stat);
                  value := default 0 (base_stat stat) |}) <$> stats
  end.

Definition extractAbilities (abilities : option (list RawAbility))
    : list PokemonAbility :=
  match abilities with
  | None => []
  | Some abilities =>
      (λ ability,
         {| ability_name := default ""%string (raw_ability_name ability);
            hidden := is_hidden ability |}) <$> abilities
  end.

(** [(baseData.types ?? []).map(...).filter(Boolean)] *)
Definition extractTypes (tys : option (list RawType)) : list string :=
  filter (λ t, truthy t)
    ((λ type, default ""%string (raw_type_name type)) <$> default [] tys).

(** What the remote side answers at each of the four endpoints. *)
Record Remote := {
  remote_base : string → Response BaseData;
  remote_species : string → Response SpeciesData;
  remote_chain : string → Response EvolutionChainData;
  remote_encounters : string → Response (list Encounter);
}.

(** [String(url)], as [fetch] and a template literal convert an argument. *)
Definition url_text (url : JsUrl) : string :=
  match url with
  | UrlUndefined => "undefined"
  | UrlNull => "null"
  | UrlString s => s
  end.

(** [fetchJson] with an argument that may be [undefined], [null] or empty:
    the [fetch] of Node then rejects with the TypeError
    [Failed to parse URL from <argument>] before any request is made. *)
Definition fetchJson_at {D} (remote : string → Response D) (url : JsUrl)
    : IO D :=
  match url_truthy url with
  | Some u => fetchJson remote u
  | None => ([], Thrown ("Failed to parse URL from " +:+ url_text url))
  end.

Definition is_english (entry : FlavorTextEntry) : bool :=
  match flavor_language entry with
  | Some l => String.eqb l "en"
  | None => false
  end.

(** The payload of [fetchPokemonDetail] once the four responses are in. *)
Definition payload_of (baseData : BaseData) (speciesData : SpeciesData)
    (chain_nodes : list PokemonEvolutionNode) (locs : list string)
    : PokemonEntry :=
  let englishFlavor :=
    match flavor_text_entries speciesData with
    | Some entries => List.find is_english entries
    | None => None
    end in
  {| entry_id := base_id baseData;
     entry_name := base_name baseData;
     height := base_height baseData;
     weight := base_weight baseData;
     baseExperience := base_experience baseData;
     types := extractTypes (base_types baseData);
     abilities := extractAbilities (base_abilities baseData);
     stats := extractStats (base_stats baseData);
     moves := extractMoves (base_moves baseData);
     image :=
       match sprites baseData with
       | Some s =>
           match official_artwork s with
           | Some url => Some url
           | None => front_default s
           end
       | None => None
       end;
     spriteVariants :=
       {| sprite_default := sprites baseData ≫= front_default;
          sprite_shiny := sprites baseData ≫= front_shiny |};
     generation := generation_name speciesData;
     habitat := habitat_name speciesData;
     isLegendary := is_legendary speciesData;
     isMythical := is_mythical speciesData;
     flavorText :=
       normalizeText
         (Some match englishFlavor with
               | Some {| flavor_text := Some t |} => t
               | _ => ""%string
               end);
     evolutionChain := chain_nodes;
     locations := locs |}.

(** [fetchPokemonDetail]: the four requests one after the other, each URL
    but the first read from an earlier response. *)
Definition fetchPokemonDetail (remote : Remote) (entry : IndexEntry)
    : IO PokemonEntry :=
  let* baseData := fetchJson (remote_base remote) (index_url entry) in
  let* speciesData :=
    fetchJson_at (remote_species remote) (base_species_url baseData) in
  let* evolutionChain :=
    fetchEvolutionChain (remote_chain remote) (evolution_chain_url speciesData) in
  let* locs :=
    fetchLocations (remote_encounters remote)
      (location_area_encounters baseData) in
  io_ret (payload_of baseData speciesData evolutionChain locs).

(** The request a helper makes for a URL: none when the URL is missing or
    empty. *)
Definition request_for (url : JsUrl) : list Event :=
  match url_truthy url with
  | Some u => [EvFetch u]
  | None => []
  end.

(** Sample answers of the remote side for bulbasaur. *)
Definition bulbasaur_base : BaseData :=
  {| base_id := 1; base_name := "bulbasaur"; base_height := 7;
     base_weight := 69; base_experience := 64;
     base_types := Some [ {| raw_type_name := Some "grass"%string |};
                          {| raw_type_name := None |};
                          {| raw_type_name := Some "poison"%string |} ];
     base_abilities := Some [ {| raw_ability_name := Some "overgrow"%string;
                                 is_hidden := false |} ];
     base_stats := Some [ {| raw_stat_name := Some "hp"%string;
                             base_stat := Some 45 |} ];
     base_moves := Some [raw_machine "cut";
                         raw_level_up (Some "tackle"%string) 1];
     sprites := None;
     base_species_url := UrlString "https://pokeapi.co/api/v2/pokemon-species/1/";
     location_area_encounters := UrlString "" |}.

Definition bulbasaur_species : SpeciesData :=
  {| evolution_chain_url := UrlUndefined;
     flavor_text_entries :=
       Some [ {| flavor_text := Some "A strange seed was planted."%string;
                 flavor_language := Some "en"%string |} ];
     generation_name := Some "generation-i"%string; habitat_name := None;
     is_legendary := false; is_mythical := false |}.

Definition sample_remote : Remote :=
  {| remote_base := λ _, Ok bulbasaur_base;
     remote_species := λ _, Ok bulbasaur_species;
     remote_chain := λ _, NotOk 404 "Not Found";
     remote_encounters := λ _, NotOk 404 "Not Found" |}.

(** A remote side that answers every request with status 503. *)
Definition unavailable : Remote :=
  {| remote_base := λ _, NotOk 503 "Service Unavailable";
     remote_species := λ _, NotOk 503 "Service Unavailable";
     remote_chain := λ _, NotOk 503 "Service Unavailable";
     remote_encounters := λ _, NotOk 503 "Service Unavailable" |}.

(** A detail response that names no species. *)
Definition orphan_base : BaseData :=
  {| base_id := 1; base_name := "bulbasaur"; base_height := 7;
     base_weight := 69; base_experience := 64;
     base_types := None; base_abilities := None; base_stats := None;
     base_moves := None; sprites := None;
     base_species_url := UrlUndefined;
     location_area_encounters := UrlString "" |}.

Definition orphan_remote : Remote :=
  {| remote_base := λ _, Ok orphan_base;
     remote_species := λ _, Ok bulbasaur_species;
     remote_chain := λ _, NotOk 404 "Not Found";
     remote_encounters := λ _, NotOk 404 "Not Found" |}.

Definition bulbasaur_entry : IndexEntry :=
  {| index_name := "bulbasaur";
     index_url := "https://pokeapi.co/api/v2/pokemon/1/" |}.

(** * Part II: lemmas and theorems *)

(** ** The sort *)
Section js_sort_facts.
Context {A : Type}.
Variable cmp : A → A → Z.

Lemma insert_by_perm x l : insert_by cmp x l ≡ₚ x :: l.
Proof.
  induction l as [|y l IH]; simpl; [done|].
  destruct (cmp x y <=? 0); [done|].
  rewrite IH. apply Permutation_swap.
Qed.

Lemma sort_by_perm l : sort_by cmp l ≡ₚ l.
Proof.
  induction l as [|x l IH]; simpl; [done|].
  rewrite insert_by_perm. by rewrite IH.
Qed.

Lemma sort_by_length l : length (sort_by cmp l) = length l.
Proof. by rewrite sort_by_perm. Qed.

Lemma elem_of_sort_by x l : x ∈ sort_by cmp l ↔ x ∈ l.
Proof. by rewrite sort_by_perm. Qed.
End js_sort_facts.

Section js_sort_key_facts.
Context {A : Type}.
Variable key : A → Z.

Global Instance key_le_trans : Transitive (key_le key).
Proof. intros a b c; unfold key_le; lia. Qed.

Lemma insert_by_key_sorted x l :
  Sorted (key_le key) l → Sorted (key_le key) (insert_by (by_key key) x l).
Proof.
  induction 1 as [|y l Hs IH Hhd]; simpl.
  - by repeat constructor.
  - unfold by_key at 1. destruct (Z.leb_spec (key x - key y) 0) as [Hle|Hgt].
    + constructor; [by constructor|]. constructor. unfold key_le. lia.
    + constructor; [done|].
      destruct Hhd as [|z l Hyz]; simpl.
      * constructor. unfold key_le. lia.
      * unfold by_key at 1. destruct (Z.leb_spec (key x - key z) 0).
        -- constructor. unfold key_le. lia.
        -- by constructor.
Qed.

Lemma sort_by_key_sorted l : Sorted (key_le key) (sort_by (by_key key) l).
Proof.
  induction l as [|x l IH]; simpl; [constructor|].
  by apply insert_by_key_sorted.
Qed.

(** Inserting in front of a list whose elements are all at least as large
    changes nothing, so sorting a sorted array is the identity. *)
Lemma insert_by_key_head x l :
  Forall (key_le key x) l → insert_by (by_key key) x l = x :: l.
Proof.
  destruct 1 as [|y l Hxy _]; simpl; [done|].
  unfold by_key, key_le in *.
  destruct (Z.leb_spec (key x - key y) 0); [done|lia].
Qed.

Lemma sort_by_key_id l :
  StronglySorted (key_le key) l → sort_by (by_key key) l = l.
Proof.
  induction 1 as [|x l Hs IH Hall]; simpl; [done|].
  rewrite IH. by apply insert_by_key_head.
Qed.

(** Stability: among the elements of one key the input order survives. *)
Lemma insert_by_key_stable k x l :
  Sorted (key_le key) l →
  filter (λ a, key a = k) (insert_by (by_key key) x l)
  = filter (λ a, key a = k) (x :: l).
Proof.
  intros Hs. apply Sorted_StronglySorted in Hs; [|apply _].
  induction Hs as [|y l Hs IH Hall]; simpl; [done|].
  unfold by_key at 1.
  destruct (Z.leb_spec (key x - key y) 0) as [Hle|Hgt]; [done|].
  destruct (decide (key x = k)) as [Hk|Hk].
  - rewrite (filter_cons_False _ y) by lia.
    rewrite IH. rewrite !(filter_cons_True _ x) by done.
    by rewrite (filter_cons_False _ y) by lia.
  - rewrite (filter_cons_False _ x) by done.
    rewrite !(filter_cons _ y). rewrite IH.
    by rewrite (filter_cons_False _ x) by done.
Qed.

Lemma sort_by_key_stable k l :
  filter (λ a, key a = k) (sort_by (by_key key) l)
  = filter (λ a, key a = k) l.
Proof.
  induction l as [|x l IH]; simpl; [done|].
  rewrite insert_by_key_stable by apply sort_by_key_sorted.
  by rewrite !(filter_cons _ x), IH.
Qed.
End js_sort_key_facts.

(** ** [extractMoves] *)

Lemma sortedLevelUp_has_level raw : Forall has_level (sortedLevelUp raw).
Proof.
  apply Forall_forall. intros m Hm. unfold sortedLevelUp in Hm.
  apply elem_of_sort_by, list_elem_of_filter in Hm. tauto.
Qed.

Lemma otherMoves_no_level raw : Forall no_level (otherMoves raw).
Proof.
  apply Forall_forall. intros m Hm. unfold otherMoves in Hm.
  apply elem_of_take in Hm as (i & Hm & _).
  apply list_elem_of_lookup_2, list_elem_of_filter in Hm. tauto.
Qed.

Lemma has_level_not_no_level m : has_level m → ¬ no_level m.
Proof. unfold has_level, no_level. intros [x ->]. done. Qed.

Lemma no_level_not_has_level m : no_level m → ¬ has_level m.
Proof. unfold has_level, no_level. intros -> [x ?]. done. Qed.

Lemma filter_all {A} (P : A → Prop) `{!∀ x, Decision (P x)} l :
  Forall P l → filter P l = l.
Proof.
  induction 1 as [|x l Hx _ IH]; [done|].
  by rewrite filter_cons_True, IH.
Qed.

Lemma filter_none {A} (P : A → Prop) `{!∀ x, Decision (P x)} l :
  Forall (λ x, ¬ P x) l → filter P l = [].
Proof.
  induction 1 as [|x l Hx _ IH]; [done|].
  by rewrite filter_cons_False, IH.
Qed.

Lemma extractMoves_level_part raw :
  filter has_level (extractMoves (Some raw)) = take 30 (sortedLevelUp raw).
Proof.
  simpl. rewrite filter_app.
  rewrite (filter_all has_level (take 30 _)).
  - rewrite (filter_none has_level (otherMoves raw)); [by rewrite app_nil_r|].
    eapply Forall_impl; [apply otherMoves_no_level|].
    apply no_level_not_has_level.
  - apply Forall_take, sortedLevelUp_has_level.
Qed.

Lemma extractMoves_other_part raw :
  filter no_level (extractMoves (Some raw)) = otherMoves raw.
Proof.
  simpl. rewrite filter_app.
  rewrite (filter_none no_level (take 30 _)).
  - simpl. apply filter_all, otherMoves_no_level.
  - apply Forall_take. eapply Forall_impl; [apply sortedLevelUp_has_level|].
    apply has_level_not_no_level.
Qed.

(** C2 (as amended): for every input array, [extractMoves] returns, of the
    mapped moves with a non-empty name, those with a non-null learn level
    sorted ascending by level (a stable sort: a permutation, ordered, equal
    levels in input order) and capped at 30, followed by those with a null
    level in input order capped at 20; the result has at most 50 entries. *)
Theorem extractMoves_named_by_level (raw : list RawMove) :
  let named := filter (λ m, truthy (move_name m)) (to_move <$> raw) in
  let levelled := sortedLevelUp raw in
  levelled ≡ₚ filter has_level named
  ∧ Sorted (key_le level_key) levelled
  ∧ (∀ k, filter (λ m, level_key m = k) levelled
          = filter (λ m, level_key m = k) (filter has_level named))
  ∧ extractMoves (Some raw)
    = take 30 levelled ++ take 20 (filter no_level named)
  ∧ (length (extractMoves (Some raw)) ≤ 50)%nat.
Proof.
  simpl. split_and!.
  - apply sort_by_perm.
  - apply sort_by_key_sorted.
  - intros k. apply sort_by_key_stable.
  - done.
  - rewrite length_app. unfold otherMoves. rewrite !length_take. lia.
Qed.

(** C2, the claim as worded: an element of the input array that has a learn
    level but no name is not returned, so the result is not the levelled
    moves of the array. *)
Lemma extractMoves_drops_nameless :
  has_level (to_move (raw_level_up None 5))
  ∧ extractMoves (Some [raw_level_up None 5]) = []
  ∧ extractMoves (Some [raw_level_up None 5])
    ≠ moves_by_level_of_all [raw_level_up None 5].
Proof. split_and!; [by eexists|done|done]. Qed.

(** ** The move table of the detail page *)

Lemma StronglySorted_take {A} (R : relation A) n l :
  StronglySorted R l → StronglySorted R (take n l).
Proof.
  intros Hs. revert n. induction Hs as [|x l Hs IH Hall]; intros [|n]; simpl;
    try constructor; [apply IH|by apply Forall_take].
Qed.

Lemma page_levelUpMoves_ingested raw :
  page_levelUpMoves (extractMoves (Some raw)) = take 30 (sortedLevelUp raw).
Proof.
  unfold page_levelUpMoves. rewrite extractMoves_level_part.
  apply sort_by_key_id, StronglySorted_take.
  apply Sorted_StronglySorted; [apply _|]. apply sort_by_key_sorted.
Qed.

Lemma combinedMoves_subseteq cmp (ms : list PokemonMove) :
  combinedMoves cmp ms ⊆ ms.
Proof.
  intros m Hm. unfold combinedMoves in Hm.
  apply elem_of_take in Hm as (i & Hm & _). apply list_elem_of_lookup_2 in Hm.
  apply elem_of_app in Hm as [Hm|Hm].
  - apply elem_of_sort_by, list_elem_of_filter in Hm. tauto.
  - apply elem_of_sort_by, list_elem_of_filter in Hm. tauto.
Qed.

(** C9 (as amended): the detail page derives its move table from the ingested
    move list alone.  On a list produced by [extractMoves], which is its
    level-up moves followed by its null-level moves, it shows the first 16
    entries of: the level-up moves in their ingested order, followed by the
    null-level moves re-sorted by name.  Every displayed move is an ingested
    one and the displayed level-up moves are a prefix of the ingested level-up
    moves; the null-level moves are not kept in ingested order. *)
Theorem combinedMoves_of_ingested
    (localeCompare : string → string → Z) (raw : list RawMove) :
  let ingested := extractMoves (Some raw) in
  combinedMoves localeCompare ingested
  = take 16 (filter has_level ingested
             ++ sort_by (by_name localeCompare) (filter no_level ingested))
  ∧ ingested = filter has_level ingested ++ filter no_level ingested
  ∧ filter has_level (combinedMoves localeCompare ingested)
    `prefix_of` filter has_level ingested
  ∧ combinedMoves localeCompare ingested ⊆ ingested.
Proof.
  intros ingested. subst ingested. split_and!.
  - unfold combinedMoves. rewrite page_levelUpMoves_ingested.
    by rewrite extractMoves_level_part.
  - by rewrite extractMoves_level_part, extractMoves_other_part.
  - unfold combinedMoves. rewrite page_levelUpMoves_ingested.
    rewrite extractMoves_level_part, take_app, filter_app.
    rewrite (filter_all has_level (take MOVES_DISPLAY_LIMIT _)).
    + rewrite (filter_none has_level); [rewrite app_nil_r; apply prefix_take|].
      apply Forall_take, Forall_forall. intros m Hm.
      apply elem_of_sort_by, list_elem_of_filter in Hm.
      apply no_level_not_has_level. tauto.
    + do 2 apply Forall_take. apply sortedLevelUp_has_level.
  - apply combinedMoves_subseteq.
Qed.

(** C9, the claim as worded: two machine moves ingested as toxic, cut are
    shown as cut, toxic, so the table is not a prefix of the ingested list. *)
Lemma combinedMoves_not_prefix :
  let ingested :=
    extractMoves
      (Some [raw_level_up (Some "tackle"%string) 1;
             raw_machine "toxic"; raw_machine "cut"]) in
  move_name <$> ingested = ["tackle"; "toxic"; "cut"]%string
  ∧ move_name <$> combinedMoves code_unit_compare ingested
    = ["tackle"; "cut"; "toxic"]%string
  ∧ ¬ combinedMoves code_unit_compare ingested `prefix_of` ingested.
Proof.
  split_and!; [done|done|].
  intros [k Hk]. vm_compute in Hk. discriminate Hk.
Qed.

(** ** [fetchEvolutionChain] *)

(** Induction on evolution trees, with the hypothesis for every child. *)
Lemma ChainLink_tree_ind (P : ChainLink → Prop) :
  P LinkNull →
  (∀ species, P (Link species None)) →
  (∀ species evolutions,
     Forall P evolutions → P (Link species (Some evolutions))) →
  ∀ node, P node.
Proof.
  intros Hnull Hleaf Hnode. fix IH 1. intros [|species [evolutions|]].
  - apply Hnull.
  - apply Hnode. induction evolutions as [|c l IHl]; constructor.
    + apply IH.
    + apply IHl.
  - apply Hleaf.
Qed.

Lemma traverse_preorder node :
  ∀ stage chain,
    traverse node stage chain = chain ++ entries_of (preorder stage node).
Proof.
  induction node as [|species|species evolutions IH] using ChainLink_tree_ind;
    intros stage chain; simpl.
  - by rewrite app_nil_r.
  - done.
  - set (rest := entries_of _).
    rewrite (cons_middle _ chain rest), app_assoc. subst rest.
    generalize (chain ++ [chain_entry species stage]). clear chain.
    induction IH as [|c l Hc _ IHl]; intros chain.
    + by rewrite app_nil_r.
    + rewrite Hc, IHl. unfold entries_of. by rewrite fmap_app, app_assoc.
Qed.

Lemma preorder_length node : ∀ depth, length (preorder depth node) = tree_size node.
Proof.
  induction node as [|species|species evolutions IH] using ChainLink_tree_ind;
    intros depth; simpl; [done|done|].
  f_equal. induction IH as [|c l Hc _ IHl]; [done|].
  by rewrite length_app, Hc, IHl.
Qed.

(** C3: the flattening of [traverse] is the depth-first preorder of the tree
    with the depth of each node as its stage (root 0, children one more);
    no node is dropped; a node without a species reference is entered with a
    null id and an empty name; a root with two direct branches gives the
    stages 0, 1, 1; and [fetchEvolutionChain] returns that flattening of
    [data.chain]. *)
Theorem traverse_is_preorder (node : ChainLink) :
  traverse node 0 [] = entries_of (preorder 0 node)
  ∧ length (traverse node 0 []) = tree_size node
  ∧ (∀ d, (None, d) ∈ preorder 0 node →
          {| node_id := None; node_name := ""; stage := d |}
          ∈ traverse node 0 [])
  ∧ (∀ root a b,
       stage <$> traverse (Link root (Some [Link a None; Link b None])) 0 []
       = [0; 1; 1]%nat)
  ∧ (∀ c u,
       fetchEvolutionChain (λ _, Ok {| chain := node |})
                           (UrlString (String c u))
       = ([EvFetch (String c u)], Returned (entries_of (preorder 0 node)))).
Proof.
  assert (Heq : traverse node 0 [] = entries_of (preorder 0 node))
    by apply traverse_preorder.
  split_and!.
  - done.
  - rewrite Heq. unfold entries_of. rewrite length_fmap. apply preorder_length.
  - intros d Hd. rewrite Heq. unfold entries_of.
    apply list_elem_of_fmap. by exists (None, d).
  - done.
  - intros c u. unfold fetchEvolutionChain. simpl. by rewrite Heq.
Qed.

Lemma traverse_is_preorder_witness :
  {| node_id := None; node_name := ""; stage := 1 |}
  ∈ traverse eevee_chain 0 [].
Proof.
  destruct (traverse_is_preorder eevee_chain) as (_ & _ & Hkept & _).
  apply Hkept. by apply list_elem_of_lookup_2 with 2%nat.
Defined.

(** C10: with a null, undefined or empty URL both helpers return the empty
    list, request nothing and throw nothing, whatever the remote side would
    have answered. *)
Theorem no_url_no_fetch
    (remote_chain : string → Response EvolutionChainData)
    (remote_encounters : string → Response (list Encounter)) :
  fetchEvolutionChain remote_chain UrlNull = ([], Returned [])
  ∧ fetchEvolutionChain remote_chain UrlUndefined = ([], Returned [])
  ∧ fetchEvolutionChain remote_chain (UrlString "") = ([], Returned [])
  ∧ fetchLocations remote_encounters UrlNull = ([], Returned [])
  ∧ fetchLocations remote_encounters UrlUndefined = ([], Returned [])
  ∧ fetchLocations remote_encounters (UrlString "") = ([], Returned []).
Proof. by split_and!. Qed.

Example id_of_url_eevee :
  id_of_url "https://pokeapi.co/api/v2/pokemon-species/133/" = Some 133
  ∧ id_of_url "https://pokeapi.co/api/v2/pokemon-species/133" = Some 133
  ∧ id_of_url "https://pokeapi.co/api/v2/pokemon-species/" = None
  ∧ id_of_url "133" = None.
Proof. by split_and!. Qed.

(** A branching chain: the branches follow the root in upstream order, not
    in order of name. *)
Example traverse_branching :
  traverse eevee_chain 0 []
  = [ {| node_id := Some 133; node_name := "eevee"; stage := 0 |};
      {| node_id := Some 134; node_name := "vaporeon"; stage := 1 |};
      {| node_id := None; node_name := ""; stage := 1 |};
      {| node_id := Some 135; node_name := "jolteon"; stage := 1 |} ].
Proof. reflexivity. Qed.

(** ** [fetchLocations] *)

(** What [name.replace(/-/g, ' ')] does to a character. *)
Lemma formatName_get s i :
  String.get i (formatName s)
  = (λ c, if decide (c = "-"%char) then " "%char else c) <$> String.get i s.
Proof.
  revert i. induction s as [|c s IH]; intros i; simpl; [done|].
  destruct i as [|i]; simpl; [|apply IH].
  f_equal. destruct (Ascii.eqb_spec c "-"); by case_decide.
Qed.

Lemma formatName_length s : String.length (formatName s) = String.length s.
Proof. induction s as [|c s IH]; simpl; [done|]. by f_equal. Qed.

Lemma formatName_hyphen_free s :
  "-"%char ∉ list_ascii_of_string (formatName s).
Proof.
  induction s as [|c s IH]; simpl; [apply not_elem_of_nil|].
  apply not_elem_of_cons. split; [|done].
  destruct (Ascii.eqb_spec c "-"); [done|congruence].
Qed.

Section locations.
Local Open Scope nat_scope.

Lemma first_seen_elem_of x l : x ∈ first_seen l ↔ x ∈ l.
Proof.
  induction l as [|y l IH]; simpl; [done|].
  rewrite !elem_of_cons, list_elem_of_filter, IH.
  destruct (decide (x = y)); tauto.
Qed.

Lemma first_seen_NoDup l : NoDup (first_seen l).
Proof.
  induction l as [|y l IH]; simpl; constructor.
  - rewrite list_elem_of_filter. tauto.
  - by apply NoDup_filter.
Qed.

(** The insertion-ordered set built by repeated [add] is the accumulator
    followed by the new elements in order of first occurrence. *)
Lemma foldl_set_add l : ∀ acc,
  foldl (λ s x, set_add x s) acc l
  = acc ++ filter (λ y, y ∉ acc) (first_seen l).
Proof.
  induction l as [|x l IH]; intros acc; simpl.
  - by rewrite app_nil_r.
  - rewrite IH. unfold set_add. destruct (decide (x ∈ acc)) as [Hx|Hx].
    + rewrite filter_cons_False by tauto.
      rewrite list_filter_filter_l; [done|]. intros y Hy ->. done.
    + rewrite filter_cons_True by done.
      rewrite <- app_assoc. simpl. do 2 f_equal.
      rewrite list_filter_filter. apply list_filter_iff. intros y.
      rewrite elem_of_app, list_elem_of_singleton. tauto.
Qed.

Lemma first_seen_app l1 l2 :
  first_seen (l1 ++ l2)
  = first_seen l1 ++ filter (λ y, y ∉ l1) (first_seen l2).
Proof.
  pose proof (foldl_set_add (l1 ++ l2) []) as H.
  rewrite foldl_app, (foldl_set_add l1), (foldl_set_add l2) in H. simpl in H.
  rewrite !(filter_all (λ y, y ∉ [])) in H
    by (apply Forall_forall; intros; apply not_elem_of_nil).
  rewrite <- H. f_equal. apply list_filter_iff. intros y.
  by rewrite first_seen_elem_of.
Qed.

Lemma foldl_visit data : ∀ acc,
  foldl (λ s e, visit e s) acc data
  = foldl (λ s x, set_add x s) acc (area_names data).
Proof.
  induction data as [|e data IH]; intros acc; [done|].
  simpl. rewrite IH. unfold visit, area_names. simpl.
  destruct (location_area_name e) as [n|]; [|done].
  by destruct (decide (truthy n)).
Qed.

Lemma visited_names data :
  foldl (λ s e, visit e s) [] data = first_seen (area_names data).
Proof.
  rewrite foldl_visit, foldl_set_add. simpl.
  apply filter_all, Forall_forall. intros; apply not_elem_of_nil.
Qed.

Lemma visit_length e locs : length (visit e locs) ≤ S (length locs).
Proof.
  unfold visit, set_add. repeat case_match; rewrite ?length_app; simpl; lia.
Qed.

Lemma collect_cons e rest locs v :
  collect (e :: rest) locs v
  = if 12 <=? length (visit e locs) then (visit e locs, S v)
    else collect rest (visit e locs) (S v).
Proof. reflexivity. Qed.

(** The loop: it runs on a prefix of the entries, the shortest one that
    brings the set to 12 names (or on all of them). *)
Lemma collect_prefix data : ∀ locs v,
  length locs < 12 →
  ∃ k, (collect data locs v).2 = v + k
     ∧ k ≤ length data
     ∧ (collect data locs v).1 = foldl (λ s e, visit e s) locs (take k data)
     ∧ (k < length data → length (collect data locs v).1 = 12)
     ∧ (∀ j, j < k →
             length (foldl (λ s e, visit e s) locs (take j data)) < 12)
     ∧ length (collect data locs v).1 ≤ 12.
Proof.
  induction data as [|e rest IH]; intros locs v Hlen.
  - exists 0. simpl. split_and!; try done; lia.
  - pose proof (visit_length e locs) as Hv. rewrite collect_cons.
    destruct (Nat.leb_spec 12 (length (visit e locs))) as [Hfull|Hroom].
    + exists 1. cbn [fst snd take foldl length]. split_and!; try done; try lia.
      intros j Hj. assert (j = 0) as -> by lia. done.
    + destruct (IH (visit e locs) (S v) Hroom)
        as (k & Hk & Hle & Hres & Hstop & Hmin & Hcap).
      exists (S k). cbn [take foldl length]. split_and!; try done; try lia.
      intros [|j] Hj; cbn [take foldl]; [done|]. apply Hmin. lia.
Qed.

Lemma collect_result data :
  (collect data [] 0).1 = take 12 (first_seen (area_names data))
  ∧ NoDup (collect data [] 0).1
  ∧ length (collect data [] 0).1 ≤ 12.
Proof.
  destruct (collect_prefix data [] 0)
    as (k & _ & Hle & Hres & Hstop & _ & Hcap); [simpl; lia|].
  rewrite visited_names in Hres.
  split_and!; [|by rewrite Hres; apply first_seen_NoDup|done].
  destruct (decide (k < length data)) as [Hlt|Hge].
  - rewrite <- (take_drop k data) at 2. unfold area_names.
    rewrite omap_app. fold (area_names (take k data)).
    rewrite first_seen_app, <- Hres.
    rewrite take_app_le by (rewrite Hstop; [done|lia]).
    symmetry. apply take_ge. rewrite Hstop; [done|lia].
  - rewrite Hres, take_ge by lia. symmetry. apply take_ge.
    rewrite take_ge in Hres by lia. by rewrite <- Hres.
Qed.

Lemma area_names_spec data l :
  l ∈ area_names data ↔
  ∃ entry n, entry ∈ data ∧ location_area_name entry = Some n
             ∧ truthy n ∧ l = formatName n.
Proof.
  unfold area_names. rewrite list_elem_of_omap. split.
  - intros (entry & He & Hl). exists entry.
    destruct (location_area_name entry) as [n|]; [|done].
    destruct (decide (truthy n)); [|done]. exists n. by simplify_eq.
  - intros (entry & n & He & Hn & Ht & ->). exists entry. split; [done|].
    rewrite Hn. by rewrite decide_True.
Qed.

Lemma collected_from_entries data l :
  l ∈ (collect data [] 0).1 →
  ("-"%char ∉ list_ascii_of_string l)
  ∧ ∃ entry n, entry ∈ data ∧ location_area_name entry = Some n
               ∧ truthy n ∧ l = formatName n.
Proof.
  destruct (collect_result data) as (-> & _). intros Hl.
  apply elem_of_take in Hl as (i & Hl & _).
  apply list_elem_of_lookup_2, first_seen_elem_of, area_names_spec in Hl.
  split; [|done]. destruct Hl as (_ & n & _ & _ & _ & ->).
  apply formatName_hyphen_free.
Qed.

(** C6: [fetchLocations] returns the distinct humanized area names in order
    of first occurrence, at most 12 of them; the loop stops right after the
    entry that brings the set to 12 names: it runs on the shortest prefix of
    the entries with 12 distinct names and on nothing after it.  A humanized
    name is the non-empty area name of an entry with every hyphen replaced
    by a space, character by character, so no returned name has a hyphen. *)
Theorem fetchLocations_first_twelve (data : list Encounter) :
  let locations := (collect data [] 0).1 in
  let visited := (collect data [] 0).2 in
  locations = first_seen (area_names (take visited data))
  ∧ locations = take 12 (first_seen (area_names data))
  ∧ NoDup locations
  ∧ length locations ≤ 12
  ∧ visited ≤ length data
  ∧ (visited < length data → length locations = 12)
  ∧ (∀ k, k < visited →
          length (first_seen (area_names (take k data))) < 12)
  ∧ (∀ c u,
       fetchLocations (λ _, Ok data) (UrlString (String c u))
       = ([EvFetch (String c u)], Returned locations))
  ∧ (∀ l, l ∈ locations →
       ("-"%char ∉ list_ascii_of_string l)
       ∧ ∃ entry n, entry ∈ data ∧ location_area_name entry = Some n
                    ∧ truthy n ∧ l = formatName n)
  ∧ (∀ n i,
       String.get i (formatName n)
       = (λ c, if decide (c = "-"%char) then " "%char else c)
           <$> String.get i n).
Proof.
  intros locations visited. subst locations visited.
  destruct (collect_prefix data [] 0) as (k & Hk & Hle & Hres & Hstop & Hmin & Hcap);
    [simpl; lia|].
  simpl in Hk. rewrite Hk. rewrite visited_names in Hres.
  destruct (collect_result data) as (Htake & _).
  split_and!; try done.
  - rewrite Hres. apply first_seen_NoDup.
  - intros j Hj. rewrite <- visited_names. by apply Hmin.
  - apply collected_from_entries.
  - apply formatName_get.
Qed.

Lemma fetchLocations_first_twelve_witness :
  (collect sample_encounters [] 0).2 < length sample_encounters
  ∧ length (collect sample_encounters [] 0).1 = 12
  ∧ ("viridian forest area"%string ∈ (collect sample_encounters [] 0).1)
  ∧ ("-"%char ∉ list_ascii_of_string "viridian forest area").
Proof.
  assert (Hearly : (collect sample_encounters [] 0).2
                   < length sample_encounters) by (vm_compute; lia).
  assert (Hin : "viridian forest area"%string
                ∈ (collect sample_encounters [] 0).1)
    by (by apply list_elem_of_lookup_2 with 0).
  destruct (fetchLocations_first_twelve sample_encounters)
    as (_ & _ & _ & _ & _ & Hstop & _ & _ & Hhuman & _).
  split_and!; [exact Hearly|exact (Hstop Hearly)|exact Hin|].
  exact (proj1 (Hhuman _ Hin)).
Defined.

(** A repeated name, a missing name and thirteen more: the loop stops at the
    entry that brings the twelfth name and leaves the last two alone. *)
Example collect_stops_early :
  collect sample_encounters [] 0
  = (["viridian forest area"; "a"; "b"; "c"; "d"; "e"; "f"; "g"; "h"; "i";
      "j"; "k"]%string, 14).
Proof. reflexivity. Qed.
End locations.

(** ** The worker pool *)
Section pool_facts.
Local Open Scope nat_scope.
Variable detail : nat → nat → option PokemonEntry.
Variable total : nat.

Local Abbreviation Inv := (pool_inv detail total).

Lemma events_of_app i tr evs :
  events_of i (tr ++ evs) = events_of i tr ++ events_of i evs.
Proof. apply filter_app. Qed.

Lemma events_of_nil i evs :
  Forall (λ e, event_item e ≠ Some i) evs → events_of i evs = [].
Proof. apply filter_none. Qed.

Lemma events_of_all i evs :
  Forall (λ e, event_item e = Some i) evs → events_of i evs = evs.
Proof. apply filter_all. Qed.

(** Lookup of a phase after worker [w] moved on. *)
Lemma lookup_moved (ws : list Phase) w w' ph ph' q :
  ws !! w = Some ph → <[w:=ph']> ws !! w' = Some q →
  (w' = w ∧ q = ph') ∨ (w' ≠ w ∧ ws !! w' = Some q).
Proof.
  intros Hw Hq. destruct (decide (w = w')) as [->|Hne].
  - rewrite list_lookup_insert_eq in Hq by (by eapply lookup_lt_Some).
    left. by simplify_eq.
  - rewrite list_lookup_insert_ne in Hq by done. right. done.
Qed.

Lemma created_inv n : Inv (created total n).
Proof.
  split; simpl.
  - lia.
  - apply length_replicate.
  - intros w ph i Hw. apply lookup_replicate in Hw as [-> _]. done.
  - intros w1 w2 ph1 ph2 i Hw. apply lookup_replicate in Hw as [-> _]. done.
  - intros i Hi. lia.
  - intros i _. split; [done|]. apply lookup_replicate_2.
  - intros w Hw. apply lookup_replicate in Hw as [? _]. done.
Qed.

(** Case split: the phase looked up is that of the worker that moved, or
    that of another worker, unchanged. *)
Tactic Notation "moved" constr(Hw) constr(Hq) "as" simple_intropattern(pat) :=
  destruct (lookup_moved _ _ _ _ _ _ Hw Hq) as pat.

(** The head of the loop claims the index under the cursor. *)
Lemma claim_inv st w ph :
  Inv st → workers st !! w = Some ph → phase_item ph = None →
  pointer st < total →
  Inv (mkPool (S (pointer st)) (completed st) (results st)
         (<[w:=AwaitFetch (pointer st)]> (workers st))
         (trace st ++ [Call (pointer st)])).
Proof.
  intros [Hptr Hlen Hheld Huniq Hclaimed Hfree Hfin] Hw Hidle Hlt.
  split; simpl.
  - lia.
  - done.
  - intros w' q i Hq Hi.
    moved Hw Hq as [[-> ->]|[Hne Hq']].
    + simpl in Hi. simplify_eq. destruct (Hfree (pointer st)) as [Hev Hres]; [lia|].
      split_and!; [lia|by apply Hres| |done].
      by rewrite events_of_app, Hev, events_of_all by (by repeat constructor).
    + destruct (Hheld _ _ _ Hq' Hi) as (Hi' & Hres & Hev & Hcatch).
      split_and!; [lia|done| |done].
      rewrite events_of_app, Hev, events_of_nil, app_nil_r; [done|].
      repeat constructor. simpl. intros [=]. lia.
  - intros w1 w2 q1 q2 i Hq1 Hq2 Hi1 Hi2.
    moved Hw Hq1 as [[-> ->]|[Hne1 Hq1']];
      moved Hw Hq2 as [[-> ->]|[Hne2 Hq2']].
    + done.
    + simpl in Hi1. simplify_eq.
      destruct (Hheld _ _ _ Hq2' Hi2) as (? & _). lia.
    + simpl in Hi2. simplify_eq.
      destruct (Hheld _ _ _ Hq1' Hi1) as (? & _). lia.
    + by eapply Huniq.
  - intros i Hi. destruct (decide (i = pointer st)) as [->|Hne].
    + left. exists w, (AwaitFetch (pointer st)). split; [|done].
      apply list_lookup_insert_eq. by eapply lookup_lt_Some.
    + destruct (Hclaimed i) as [(w' & q & Hq & Hqi)|[Hres (w' & Hev)]]; [lia| |].
      * left. exists w', q. split; [|done].
        rewrite list_lookup_insert_ne; [done|]. intros ->. congruence.
      * right. split; [done|]. exists w'.
        rewrite events_of_app, Hev, events_of_nil, app_nil_r; [done|].
        repeat constructor. simpl. congruence.
  - intros i Hi. destruct (Hfree i) as [Hev Hres]; [lia|].
    split; [|done]. rewrite events_of_app, Hev, events_of_nil; [done|].
    repeat constructor. simpl. intros [=]. lia.
  - intros w' Hq.
    moved Hw Hq as [[_ [=]]|[_ Hq']].
    apply Hfin in Hq'. lia.
Qed.

(** ... or the worker leaves the loop. *)
Lemma leave_inv st w ph :
  Inv st → workers st !! w = Some ph → phase_item ph = None →
  ¬ pointer st < total →
  Inv (set_phase w Finished st).
Proof.
  intros [Hptr Hlen Hheld Huniq Hclaimed Hfree Hfin] Hw Hidle Hge.
  split; simpl; try done.
  - intros w' q i Hq Hi.
    moved Hw Hq as [[-> ->]|[Hne Hq']]; [done|].
    by eapply Hheld.
  - intros w1 w2 q1 q2 i Hq1 Hq2 Hi1 Hi2.
    moved Hw Hq1 as [[-> ->]|[Hne1 Hq1']]; [done|].
    moved Hw Hq2 as [[-> ->]|[Hne2 Hq2']]; [done|].
    by eapply Huniq.
  - intros i Hi. destruct (Hclaimed i Hi) as [(w' & q & Hq & Hqi)|?]; [|by right].
    left. exists w', q. split; [|done].
    rewrite list_lookup_insert_ne; [done|]. intros ->. congruence.
  - intros w' _. lia.
Qed.
(** A worker moves on inside the [try]/[catch] of its item, or is done
    with it. *)
Lemma item_inv st w ph i ph' res' cmp' evs :
  Inv st → workers st !! w = Some ph → phase_item ph = Some i →
  (∀ j, j ≠ i → events_of j evs = []) →
  (phase_item ph' = Some i ∧ res' = results st
   ∧ events_of i (trace st ++ evs) = phase_events (S w) i ph'
   ∧ (in_catch ph' → detail i 0 = None))
  ∨ (phase_item ph' = None ∧ ph' ≠ Finished
     ∧ res' = <[i:=item_slot detail i]> (results st)
     ∧ events_of i (trace st ++ evs) = item_events detail (S w) i) →
  Inv (mkPool (pointer st) cmp' res' (<[w:=ph']> (workers st))
         (trace st ++ evs)).
Proof.
  intros [Hptr Hlen Hheld Huniq Hclaimed Hfree Hfin] Hw Hi Hevs Hcase.
  destruct (Hheld _ _ _ Hw Hi) as (Hlt & Hhole & Hev & Hcatch).
  assert (Hother : ∀ j, j ≠ i → res' !! j = results st !! j).
  { intros j Hj. destruct Hcase as [(_ & -> & _)|(_ & _ & -> & _)]; [done|].
    by apply list_lookup_insert_ne. }
  assert (Hquiet : ∀ j, j ≠ i →
            events_of j (trace st ++ evs) = events_of j (trace st)).
  { intros j Hj. by rewrite events_of_app, Hevs, app_nil_r. }
  assert (Hsole : ∀ w' q j, w' ≠ w → workers st !! w' = Some q →
            phase_item q = Some j → j ≠ i).
  { intros w' q j Hne Hq Hj ->. apply Hne.
    exact (Huniq _ _ _ _ _ Hq Hw Hj Hi). }
  split; simpl.
  - done.
  - destruct Hcase as [(_ & -> & _)|(_ & _ & -> & _)];
      by rewrite ?length_insert.
  - intros w' q j Hq Hj.
    moved Hw Hq as [[-> ->]|[Hne Hq']].
    + destruct Hcase as [(Hi' & -> & Hev' & Hcatch')|(Hi' & _)];
        [|congruence].
      assert (j = i) as -> by congruence. done.
    + pose proof (Hsole _ _ _ Hne Hq' Hj) as Hji.
      destruct (Hheld _ _ _ Hq' Hj) as (? & ? & ? & ?).
      rewrite Hother, Hquiet by done. done.
  - intros w1 w2 q1 q2 j Hq1 Hq2 Hj1 Hj2.
    moved Hw Hq1 as [[-> ->]|[Hne1 Hq1']];
      moved Hw Hq2 as [[-> ->]|[Hne2 Hq2']].
    + done.
    + destruct Hcase as [(Hi' & _)|(Hi' & _)]; [|congruence].
      assert (j = i) as -> by congruence.
      by destruct (Hsole _ _ _ Hne2 Hq2' Hj2).
    + destruct Hcase as [(Hi' & _)|(Hi' & _)]; [|congruence].
      assert (j = i) as -> by congruence.
      by destruct (Hsole _ _ _ Hne1 Hq1' Hj1).
    + by eapply Huniq.
  - intros j Hj. destruct (decide (j = i)) as [->|Hne].
    + destruct Hcase as [(Hi' & _)|(_ & _ & -> & Hev')].
      * left. exists w, ph'. split; [|done].
        apply list_lookup_insert_eq. by eapply lookup_lt_Some.
      * right. split; [|by exists w].
        apply list_lookup_insert_eq. lia.
    + rewrite Hother, Hquiet by done.
      destruct (Hclaimed j Hj) as [(w' & q & Hq & Hqj)|?]; [|by right].
      left. exists w', q. split; [|done].
      rewrite list_lookup_insert_ne; [done|]. intros ->. congruence.
  - intros j Hj. assert (j ≠ i) by lia.
    rewrite Hother, Hquiet by done. by apply Hfree.
  - intros w' Hq.
    moved Hw Hq as [[_ <-]|[_ Hq']].
    + by destruct Hcase as [(? & _)|(_ & ? & _)].
    + exact (Hfin _ Hq').
Qed.

Lemma after_item_quiet n j :
  events_of j ((if decide (n `mod` 10 = 0) then [Progress n] else [])
               ++ [Throttle 100]) = [].
Proof. apply events_of_nil. case_decide; by repeat constructor. Qed.

Lemma resume_inv w st st' : Inv st → resume detail total w st = Some st' → Inv st'.
Proof.
  intros HI Hres. unfold resume in Hres.
  destruct (workers st !! w) as [ph|] eqn:Hw; [|done].
  pose proof (inv_pointer _ _ _ HI) as Hptr.
  assert (Henter : Inv (enter_loop total w st) ∨ phase_item ph ≠ None).
  { destruct (phase_item ph) eqn:Hitem; [by right|left].
    unfold enter_loop. destruct (Nat.ltb_spec (pointer st) total).
    - exact (claim_inv st w ph HI Hw Hitem H).
    - eapply leave_inv; [done..|lia]. }
  destruct ph as [|i|i|i| |]; simplify_eq.
  - by destruct Henter.
  - destruct (HI.(inv_held _ _ _) _ _ _ Hw eq_refl) as (Hlt & Hhole & Hev & _).
    destruct (detail i 0) as [payload|] eqn:Hd; simplify_eq.
    + assert (item_slot detail i = Filled payload) as <-
        by (unfold item_slot; by rewrite Hd).
      unfold after_item, set_phase, set_result, log; cbn [pointer completed results workers trace].
      eapply (item_inv st w _ i AwaitThrottle); [done..| |].
      * intros j _. apply after_item_quiet.
      * right. split_and!; try done.
        rewrite events_of_app, after_item_quiet, app_nil_r, Hev.
        unfold item_events. by rewrite Hd.
    + unfold on_failure, set_phase, log; cbn [pointer completed results workers trace]. rewrite Nat.min_l by done.
      eapply (item_inv st w _ i (AwaitBackoff i)); [done..| |].
      * intros j Hj. apply events_of_nil. repeat constructor; simpl; congruence.
      * left. split_and!; try done.
        by rewrite events_of_app, Hev, events_of_all by (by repeat constructor).
  - destruct (HI.(inv_held _ _ _) _ _ _ Hw eq_refl) as (Hlt & Hhole & Hev & Hd).
    unfold set_phase, log; cbn [pointer completed results workers trace].
    eapply (item_inv st w _ i (AwaitRetry i)); [done..| |].
    + intros j Hj. apply events_of_nil. repeat constructor; simpl; congruence.
    + left. split_and!; try done.
      by rewrite events_of_app, Hev, events_of_all by (by repeat constructor).
  - destruct (HI.(inv_held _ _ _) _ _ _ Hw eq_refl) as (Hlt & Hhole & Hev & Hd).
    specialize (Hd I).
    destruct (detail i 1) as [payload|] eqn:Hd1; simplify_eq.
    + assert (item_slot detail i = Filled payload) as <-
        by (unfold item_slot; by rewrite Hd, Hd1).
      unfold after_item, set_phase, set_result, log; cbn [pointer completed results workers trace].
      eapply (item_inv st w _ i AwaitThrottle); [done..| |].
      * intros j _. apply after_item_quiet.
      * right. split_and!; try done.
        rewrite events_of_app, after_item_quiet, app_nil_r, Hev.
        unfold item_events. by rewrite Hd, Hd1.
    + assert (item_slot detail i = Null) as <-
        by (unfold item_slot; by rewrite Hd, Hd1).
      unfold after_item, set_phase, set_result, log; cbn [pointer completed results workers trace].
      rewrite <- app_assoc.
      eapply (item_inv st w _ i AwaitThrottle); [done..| |].
      * intros j Hj. rewrite events_of_app, after_item_quiet, app_nil_r.
        apply events_of_nil. repeat constructor; simpl; congruence.
      * right. split_and!; try done.
        rewrite events_of_app, (events_of_app i [RetryFailed (S w) i]).
        rewrite after_item_quiet, app_nil_r, Hev.
        rewrite events_of_all by (by repeat constructor).
        unfold item_events. by rewrite Hd, Hd1.
  - by destruct Henter.
Qed.

Lemma run_inv schedule : ∀ st, Inv st → Inv (run detail total schedule st).
Proof.
  induction schedule as [|w schedule IH]; intros st HI; [done|].
  simpl. apply IH. destruct (resume detail total w st) eqn:Hres; [|done].
  by eapply resume_inv.
Qed.

Lemma started_inv CONCURRENCY schedule :
  Inv (run detail total schedule (started detail total CONCURRENCY)).
Proof. apply run_inv, run_inv, created_inv. Qed.
(** *** The run ends *)

Lemma weight_moved (ws : list Phase) w ph ph' :
  ws !! w = Some ph →
  sum_list_with phase_weight (<[w:=ph']> ws) + phase_weight ph
  = sum_list_with phase_weight ws + phase_weight ph'.
Proof.
  revert w. induction ws as [|q ws IH]; intros [|w] Hw; simplify_eq/=.
  - lia.
  - specialize (IH _ Hw). lia.
Qed.

(** Every resumption of a worker that has not finished uses up budget. *)
Lemma resume_budget w st ph :
  workers st !! w = Some ph → ph ≠ Finished →
  ∃ st', resume detail total w st = Some st'
         ∧ budget total st' < budget total st.
Proof.
  intros Hw Hph. unfold resume. rewrite Hw.
  assert (Hmove : ∀ ph', sum_list_with phase_weight (<[w:=ph']> (workers st))
                         + phase_weight ph
                         = sum_list_with phase_weight (workers st)
                           + phase_weight ph')
    by (intros; by apply weight_moved).
  assert (Henter : phase_weight ph = 1 →
            budget total (enter_loop total w st) < budget total st).
  { intros Hone. unfold enter_loop, budget.
    destruct (Nat.ltb_spec (pointer st) total); simpl.
    - specialize (Hmove (AwaitFetch (pointer st))). simpl in Hmove. lia.
    - specialize (Hmove Finished). simpl in Hmove. lia. }
  destruct ph as [|i|i|i| |]; [| | | | |done].
  - eexists; split; [done|]. by apply Henter.
  - destruct (detail i 0); (eexists; split; [done|]); unfold budget; simpl.
    + specialize (Hmove AwaitThrottle). simpl in Hmove. lia.
    + specialize (Hmove (AwaitBackoff i)). simpl in Hmove. lia.
  - eexists; split; [done|]. unfold budget; simpl.
    specialize (Hmove (AwaitRetry i)). simpl in Hmove. lia.
  - destruct (detail i 1); (eexists; split; [done|]); unfold budget; simpl;
      specialize (Hmove AwaitThrottle); simpl in Hmove; lia.
  - eexists; split; [done|]. by apply Henter.
Qed.

Lemma next_pending_None st : next_pending st = None → all_finished st.
Proof.
  unfold next_pending, all_finished. intros Hnone.
  apply fmap_None, list_find_None in Hnone.
  eapply Forall_impl; [done|]. intros ph Hph. simpl in Hph.
  by destruct (decide (ph = Finished)).
Qed.

Lemma next_pending_Some st w :
  next_pending st = Some w →
  ∃ ph, workers st !! w = Some ph ∧ ph ≠ Finished.
Proof.
  unfold next_pending. intros Hsome.
  apply fmap_Some in Hsome as ([w' ph] & Hfind & ->).
  apply list_find_Some in Hfind as (Hw & Hph & _). by exists ph.
Qed.

Lemma in_turn_finishes fuel : ∀ st,
  budget total st ≤ fuel →
  all_finished (run detail total (in_turn detail total fuel st) st).
Proof.
  induction fuel as [|fuel IH]; intros st Hfuel; simpl.
  - apply next_pending_None.
    destruct (next_pending st) as [w|] eqn:Hnext; [|done].
    apply next_pending_Some in Hnext as (ph & Hw & Hph).
    apply list_elem_of_lookup_2 in Hw.
    apply (sum_list_with_in _ phase_weight) in Hw.
    unfold budget in Hfuel. destruct ph; simpl in Hw; done || lia.
  - destruct (next_pending st) as [w|] eqn:Hnext.
    + destruct (next_pending_Some _ _ Hnext) as (ph & Hw & Hph).
      destruct (resume_budget _ _ _ Hw Hph) as (st' & Hres & Hless).
      simpl. rewrite Hres. simpl. apply IH. lia.
    + by apply next_pending_None.
Qed.

Lemma run_app s1 s2 st :
  run detail total (s1 ++ s2) st
  = run detail total s2 (run detail total s1 st).
Proof. apply foldl_app. Qed.

(** *** What a finished pool holds *)

Lemma finished_item st i :
  Inv st → all_finished st → workers st ≠ [] → i < total →
  results st !! i = Some (item_slot detail i)
  ∧ ∃ w, events_of i (trace st) = item_events detail (S w) i.
Proof.
  intros HI Hfin Hsome Hi.
  assert (pointer st = total) as Hptr.
  { destruct (workers st) as [|ph ws] eqn:Hws; [done|].
    apply (inv_finished _ _ _ HI 0). rewrite Hws. simpl.
    unfold all_finished in Hfin. rewrite Hws in Hfin.
    by apply Forall_cons in Hfin as [-> _]. }
  destruct (inv_claimed _ _ _ HI i) as [(w & ph & Hw & Hitem)|?];
    [lia| |done].
  apply list_elem_of_lookup_2 in Hw.
  rewrite (proj1 (Forall_forall _ _) Hfin _ Hw) in Hitem. done.
Qed.

Lemma events_prefix st i :
  Inv st → ∃ w, events_of i (trace st) `prefix_of` item_events detail (S w) i.
Proof.
  intros HI. destruct (decide (i < pointer st)) as [Hlt|Hge].
  - destruct (inv_claimed _ _ _ HI i Hlt)
      as [(w & ph & Hw & Hitem)|[_ [w Hev]]].
    + exists w.
      destruct (inv_held _ _ _ HI _ _ _ Hw Hitem) as (_ & _ & -> & Hcatch).
      unfold item_events.
      destruct ph; simplify_eq/=.
      * by apply prefix_cons, prefix_nil.
      * rewrite Hcatch by done. do 3 apply prefix_cons. apply prefix_nil.
      * rewrite Hcatch by done. do 4 apply prefix_cons. apply prefix_nil.
    + exists w. by rewrite Hev.
  - exists 0. destruct (inv_unclaimed _ _ _ HI i) as [-> _]; [lia|].
    apply prefix_nil.
Qed.

Lemma started_workers CONCURRENCY schedule :
  length (workers (run detail total schedule
                     (started detail total CONCURRENCY)))
  = pool_size total CONCURRENCY.
Proof.
  assert (Hres : ∀ w st st', resume detail total w st = Some st' →
                   length (workers st') = length (workers st)).
  { intros w st st' Hres. unfold resume in Hres.
    unfold enter_loop, after_item, on_failure in Hres.
    repeat case_match; simplify_eq/=; by rewrite length_insert. }
  assert (Hrun : ∀ s st, length (workers (run detail total s st))
                         = length (workers st)).
  { induction s as [|w s IH]; intros st; [done|]. simpl. rewrite IH.
    destruct (resume detail total w st) eqn:Hr; [by eapply Hres|done]. }
  unfold started. rewrite !Hrun. simpl. apply length_replicate.
Qed.
End pool_facts.

(** ** [main]: retries, the written dataset, the fatal index failure *)
Section main_facts.
Local Open Scope nat_scope.
Variable detail : nat → nat → option PokemonEntry.
Variable total : nat.

Lemma pool_size_pos CONCURRENCY :
  (0 < CONCURRENCY)%Z → 0 < total → 0 < pool_size total CONCURRENCY.
Proof. unfold pool_size. lia. Qed.

Lemma finished_results CONCURRENCY schedule :
  let st := run detail total schedule (started detail total CONCURRENCY) in
  (0 < CONCURRENCY)%Z → all_finished st →
  results st = item_slot detail <$> seq 0 total.
Proof.
  intros st Hc Hfin.
  pose proof (started_inv detail total CONCURRENCY schedule) as HI.
  fold st in HI. apply list_eq. intros i.
  destruct (decide (i < total)) as [Hi|Hi].
  - rewrite list_lookup_fmap, lookup_seq_lt by done. simpl.
    apply (finished_item detail total st i); try done.
    intros Hnil. apply (f_equal length) in Hnil.
    unfold st in Hnil. rewrite started_workers in Hnil. simpl in Hnil.
    pose proof (pool_size_pos CONCURRENCY). lia.
  - rewrite !lookup_ge_None_2; [done|..].
    + rewrite length_fmap, length_seq. lia.
    + rewrite (inv_length _ _ _ HI). lia.
Qed.

Lemma filled_in_filteredResults (res : list Slot) p :
  p ∈ filteredResults res ↔ Filled p ∈ res.
Proof.
  unfold filteredResults. rewrite elem_of_sort_by, list_elem_of_omap.
  split.
  - intros (s & Hs & Hp). destruct s; simplify_eq/=. done.
  - intros Hp. by exists (Filled p).
Qed.

(** C4: for every index the events of the pool are at any time a prefix of:
    one call; after a failure the error line, the pause of 500 ms and one
    more call; after a second failure the second error line.  Once all
    workers have finished, every item is there in full: the slot holds the
    payload of the first call, else that of the retry, which is then part
    of the output, else the [null] placeholder; and whatever failed, the
    pool can always be run to the end. *)
Theorem worker_retries_once (CONCURRENCY : Z) (schedule : list nat) :
  let st := run detail total schedule (started detail total CONCURRENCY) in
  (∀ i, ∃ w, events_of i (trace st) `prefix_of` item_events detail (S w) i)
  ∧ ((0 < CONCURRENCY)%Z → all_finished st → ∀ i, i < total →
       results st !! i = Some (item_slot detail i)
       ∧ (∃ w, events_of i (trace st) = item_events detail (S w) i)
       ∧ (∀ payload, detail i 0 = None → detail i 1 = Some payload →
            payload ∈ filteredResults (results st))
       ∧ (detail i 0 = None → detail i 1 = None →
            results st !! i = Some Null))
  ∧ (∃ more,
       all_finished
         (run detail total (schedule ++ more)
            (started detail total CONCURRENCY))).
Proof.
  intros st.
  pose proof (started_inv detail total CONCURRENCY schedule) as HI.
  fold st in HI. split_and!.
  - intros i. by apply (events_prefix detail total).
  - intros Hc Hfin i Hi.
    assert (Hres : results st !! i = Some (item_slot detail i)).
    { unfold st. rewrite (finished_results CONCURRENCY schedule Hc Hfin).
      by rewrite list_lookup_fmap, lookup_seq_lt. }
    split_and!.
    + done.
    + apply (finished_item detail total st i); try done.
      intros Hnil. apply (f_equal length) in Hnil.
      unfold st in Hnil. rewrite started_workers in Hnil. simpl in Hnil.
      pose proof (pool_size_pos CONCURRENCY). lia.
    + intros payload Hd0 Hd1. apply filled_in_filteredResults.
      apply list_elem_of_lookup_2 with i. rewrite Hres.
      unfold item_slot. by rewrite Hd0, Hd1.
    + intros Hd0 Hd1. rewrite Hres. unfold item_slot. by rewrite Hd0, Hd1.
  - exists (in_turn detail total (budget total st) st).
    rewrite run_app. by apply in_turn_finishes.
Qed.
End main_facts.

Lemma worker_retries_once_witness :
  let st := run sample_detail 3 sample_schedule (started sample_detail 3 2) in
  (0 < 2)%Z ∧ all_finished st
  ∧ results st !! 1%nat = Some (Filled bulbasaur)
  ∧ bulbasaur ∈ filteredResults (results st)
  ∧ results st !! 2%nat = Some Null.
Proof.
  intros st.
  assert (Hc : (0 < 2)%Z) by lia.
  assert (Hfin : all_finished st) by (vm_compute; repeat constructor).
  destruct (worker_retries_once sample_detail 3 2 sample_schedule)
    as (_ & Hdone & _).
  destruct (Hdone Hc Hfin 1%nat) as (Hres1 & _ & Hout & _); [lia|].
  destruct (Hdone Hc Hfin 2%nat) as (_ & _ & _ & Hnull); [lia|].
  split_and!; [done|done|exact Hres1|by apply Hout|by apply Hnull].
Defined.

(** C7: when [main] gets to the end, all workers have finished and the file
    holds exactly the payloads of the non-null slots of [results], holes and
    [null] placeholders dropped, in ascending order of identifier (a stable
    sort); with at least one worker these are the payloads the items ended
    with, whatever the schedule was. *)
Theorem written_dataset_sorted (LIMIT CONCURRENCY : Z)
    (remote : string → Response IndexList)
    (detail : nat → nat → option PokemonEntry) (schedule : list nat)
    (index : IndexList) (proc : Process) :
  remote (index_request LIMIT) = Ok index →
  main LIMIT CONCURRENCY remote detail schedule = Some proc →
  let total := length (default [] (list_results index)) in
  let st := run detail total schedule (started detail total CONCURRENCY) in
  all_finished st
  ∧ exit_code proc = 0
  ∧ ∃ dataset,
      written proc = Some dataset
      ∧ dataset ≡ₚ omap slot_payload (results st)
      ∧ (∀ p, p ∈ dataset ↔ Filled p ∈ results st)
      ∧ Sorted (key_le entry_id) dataset
      ∧ (∀ k, filter (λ p, entry_id p = k) dataset
              = filter (λ p, entry_id p = k) (omap slot_payload (results st)))
      ∧ (0 < CONCURRENCY →
           dataset
           = sort_by (by_key entry_id)
               (omap slot_payload (item_slot detail <$> seq 0 total))).
Proof.
  intros Hremote Hmain total st. unfold main, fetchJson in Hmain.
  rewrite Hremote in Hmain. fold total in Hmain. fold st in Hmain.
  destruct (decide (all_finished st)) as [Hfin|]; [|done].
  simplify_eq/=. split_and!; [done..|].
  exists (filteredResults (results st)). split_and!.
  - done.
  - apply sort_by_perm.
  - intros p. apply filled_in_filteredResults.
  - apply sort_by_key_sorted.
  - intros k. apply sort_by_key_stable.
  - intros Hc. unfold filteredResults, st.
    by rewrite (finished_results detail total CONCURRENCY schedule Hc Hfin).
Qed.

Lemma written_dataset_sorted_witness :
  ∃ dataset,
    (main 251 2 (λ _, Ok sample_index) sample_detail sample_schedule
     ≫= written) = Some dataset
    ∧ dataset = [bulbasaur; squirtle]
    ∧ Sorted (key_le entry_id) dataset.
Proof.
  destruct (written_dataset_sorted 251 2 (λ _, Ok sample_index)
              sample_detail sample_schedule sample_index
              {| exit_code := 0; written := Some [bulbasaur; squirtle] |})
    as (_ & _ & dataset & Hw & _ & _ & Hs & _);
    [reflexivity|vm_compute; reflexivity|].
  exists dataset. simpl in Hw. simplify_eq. split_and!; [by vm_compute|done|done].
Defined.

(** C8: when the request for the index fails (the response is not ok, or
    the request or the reading of its body is rejected), the process ends
    with exit code 1 and [fs.writeFileSync] is never called, whatever the
    rest of the world would have done. *)
Theorem index_failure_is_fatal (LIMIT CONCURRENCY : Z)
    (remote : string → Response IndexList)
    (detail : nat → nat → option PokemonEntry) (schedule : list nat) :
  (∀ index, remote (index_request LIMIT) ≠ Ok index) →
  main LIMIT CONCURRENCY remote detail schedule
  = Some {| exit_code := 1; written := None |}.
Proof.
  intros Hremote. unfold main, fetchJson.
  destruct (remote (index_request LIMIT)) as [index| |]; [|done..].
  by destruct (Hremote index).
Qed.

Lemma index_failure_is_fatal_witness :
  main 251 8 (λ _, NotOk 503 "Service Unavailable") sample_detail
    sample_schedule
  = Some {| exit_code := 1; written := None |}.
Proof. apply index_failure_is_fatal. intros index. discriminate. Defined.

(** Whatever the schedule so far, [main] can get to its end. *)
Lemma main_ends (LIMIT CONCURRENCY : Z)
    (remote : string → Response IndexList)
    (detail : nat → nat → option PokemonEntry) (schedule : list nat) :
  ∃ more, is_Some (main LIMIT CONCURRENCY remote detail (schedule ++ more)).
Proof.
  unfold main, fetchJson.
  destruct (remote (index_request LIMIT)) as [index| |];
    [|by exists []..].
  set (total := length (default [] (list_results index))).
  exists (in_turn detail total
            (budget total (run detail total schedule
                             (started detail total CONCURRENCY)))
            (run detail total schedule (started detail total CONCURRENCY))).
  rewrite decide_True; [done|].
  rewrite run_app. by apply in_turn_finishes.
Qed.

(** ** The query engine *)

Lemma starts_with_spec p : ∀ s,
  starts_with p s ↔ ∃ post, s = p +:+ post.
Proof.
  induction p as [|a p IH]; intros s; simpl.
  - split; [by exists s|done].
  - destruct s as [|b s].
    + split; [done|]. by intros [post ?].
    + rewrite andb_True, IH. split.
      * intros [Hab [post ->]]. apply Is_true_true, Ascii.eqb_eq in Hab as ->.
        by exists post.
      * intros [post [= -> ->]]. split; [|by exists post].
        apply Is_true_true, Ascii.eqb_refl.
Qed.

(** [includes] finds exactly the substrings. *)
Lemma includes_spec q : ∀ s,
  includes q s ↔ ∃ pre post, s = pre +:+ q +:+ post.
Proof.
  induction s as [|b s IH]; simpl; rewrite orb_True, starts_with_spec.
  - split.
    + intros [[post ->]|[]]. by exists "", post.
    + intros (pre & post & H). left. destruct pre; [by exists post|done].
  - rewrite IH. split.
    + intros [[post ->]|(pre & post & ->)]; [by exists "", post|].
      by exists (String b pre), post.
    + intros (pre & post & H). destruct pre as [|c pre]; simpl in H.
      * left. by exists post.
      * right. injection H as -> ->. by exists pre, post.
Qed.

Lemma drop_space_all l : Forall (λ c, is_space c) l → drop_space l = [].
Proof.
  induction 1 as [|c l Hc _ IH]; simpl; [done|].
  by destruct (is_space c).
Qed.

Lemma normalize_blank s :
  Forall (λ c, is_space c) (list_ascii_of_string s) → normalize s = "".
Proof.
  intros Hs. unfold normalize, trim. by rewrite (drop_space_all _ Hs).
Qed.

Lemma StronglySorted_sublist {A} (R : relation A) l1 l2 :
  l1 `sublist_of` l2 → StronglySorted R l2 → StronglySorted R l1.
Proof.
  induction 1 as [|x l1 l2 Hsub IH|x l1 l2 Hsub IH]; intros Hs.
  - constructor.
  - apply StronglySorted_inv in Hs as [Hs Hall]. constructor; [by apply IH|].
    apply Forall_forall. intros y Hy.
    eapply (proj1 (Forall_forall _ _) Hall), elem_of_sublist; done.
  - apply StronglySorted_inv in Hs as [Hs _]. by apply IH.
Qed.

(** C1: with a non-empty type selection, every record that
    [filterAndSortPokemon] returns is a record of the collection whose types
    include every selected type. *)
Theorem type_filter_conjunctive (localeCompare : string → string → Z)
    (collection : list PokemonEntry) (f : FilterState) :
  selectedTypes f ≠ [] →
  ∀ r, r ∈ filterAndSortPokemon localeCompare collection f →
       r ∈ collection ∧ ∀ t, t ∈ selectedTypes f → t ∈ types r.
Proof.
  intros _ r Hr. unfold filterAndSortPokemon in Hr.
  apply elem_of_sort_by, list_elem_of_filter in Hr as [Hm Hr].
  split; [done|]. intros t Ht.
  unfold matches in Hm. rewrite !andb_True in Hm.
  destruct Hm as [[[_ Htypes] _] _]. unfold matches_types in Htypes.
  apply Is_true_true in Htypes.
  rewrite forallb_forall in Htypes. apply list_elem_of_In in Ht.
  specialize (Htypes _ Ht). by apply bool_decide_eq_true in Htypes.
Qed.

Lemma type_filter_conjunctive_witness :
  selectedTypes (sample_filters ["grass"; "poison"]%string) ≠ []
  ∧ ∀ r,
      r ∈ filterAndSortPokemon code_unit_compare
            [squirtle; bulbasaur; charmander]
            (sample_filters ["grass"; "poison"]%string) →
      r ∈ [squirtle; bulbasaur; charmander]
      ∧ ∀ t, t ∈ ["grass"; "poison"]%string → t ∈ types r.
Proof.
  split; [discriminate|].
  apply (type_filter_conjunctive code_unit_compare
           [squirtle; bulbasaur; charmander]
           (sample_filters ["grass"; "poison"]%string)).
  discriminate.
Defined.

(** A record with one of two selected types only is not returned. *)
Example type_filter_not_disjunctive :
  filterAndSortPokemon code_unit_compare [squirtle; bulbasaur; charmander]
    (sample_filters ["grass"; "fire"]%string) = []
  ∧ filterAndSortPokemon code_unit_compare [squirtle; bulbasaur; charmander]
      (sample_filters ["poison"; "grass"]%string) = [bulbasaur]
  ∧ filterAndSortPokemon code_unit_compare [squirtle; bulbasaur; charmander]
      (sample_filters []) = [bulbasaur; charmander; squirtle].
Proof. by split_and!. Qed.

(** C5: [getAutocompleteSuggestions] returns nothing for an empty or
    whitespace-only query; otherwise it returns the first [N] records of the
    collection, in the order of the collection, whose lower-cased name
    contains the normalized query: at most [N] records, each with the query
    inside its name, and in ascending order of identifier when the
    collection is. *)
Theorem autocomplete_suggestions (collection : list PokemonEntry)
    (query : string) (N : nat) :
  let q := normalize query in
  let suggestions := getAutocompleteSuggestions collection query N in
  (Forall (λ c, is_space c) (list_ascii_of_string query) → suggestions = [])
  ∧ (q ≠ ""%string →
       suggestions
       = take N (filter (λ r, includes q (to_lower (entry_name r)))
                        collection))
  ∧ (length suggestions ≤ N)%nat
  ∧ (∀ r, r ∈ suggestions →
          r ∈ collection
          ∧ ∃ pre post, to_lower (entry_name r) = pre +:+ q +:+ post)
  ∧ suggestions `sublist_of` collection
  ∧ (StronglySorted (key_le entry_id) collection →
       StronglySorted (key_le entry_id) suggestions).
Proof.
  intros q suggestions.
  assert (Hsub : suggestions `sublist_of` collection).
  { unfold suggestions, getAutocompleteSuggestions.
    destruct (String.eqb _ _); [apply sublist_nil_l|].
    etrans; [apply sublist_take|apply sublist_filter]. }
  split_and!.
  - intros Hblank. unfold suggestions, getAutocompleteSuggestions.
    by rewrite normalize_blank.
  - intros Hq. unfold suggestions, getAutocompleteSuggestions. fold q.
    destruct (String.eqb_spec q ""); done.
  - unfold suggestions, getAutocompleteSuggestions.
    destruct (String.eqb _ _); simpl; [lia|]. rewrite length_take. lia.
  - intros r Hr. split; [by eapply elem_of_sublist|].
    unfold suggestions, getAutocompleteSuggestions in Hr. fold q in Hr.
    destruct (String.eqb q ""); [by apply elem_of_nil in Hr|].
    apply elem_of_take in Hr as (i & Hr & _).
    apply list_elem_of_lookup_2, list_elem_of_filter in Hr as [Hr _].
    by apply includes_spec.
  - done.
  - by apply StronglySorted_sublist.
Qed.

Lemma autocomplete_suggestions_witness :
  getAutocompleteSuggestions pi_fixture "   " 2 = []
  ∧ getAutocompleteSuggestions pi_fixture " Pi " 2 = [pidgey; pidgeotto]
  ∧ StronglySorted (key_le entry_id)
      (getAutocompleteSuggestions pi_fixture " Pi " 2).
Proof.
  destruct (autocomplete_suggestions pi_fixture "   " 2) as (Hblank & _).
  destruct (autocomplete_suggestions pi_fixture " Pi " 2)
    as (_ & Htake & _ & _ & _ & Hsorted).
  split_and!.
  - apply Hblank. vm_compute. repeat constructor.
  - rewrite Htake; [reflexivity|discriminate].
  - apply Hsorted. unfold pi_fixture.
    repeat (constructor; [|repeat constructor; vm_compute; discriminate]).
    constructor.
Defined.

(** * Part III: further properties of the code *)

(** ** [extractMoves], [formatName], the two helpers with a URL *)

Lemma extractMoves_length moves : (length (extractMoves moves) ≤ 50)%nat.
Proof.
  destruct moves as [raw|]; simpl; [|lia].
  rewrite length_app. unfold otherMoves. rewrite !length_take. lia.
Qed.

Lemma extractMoves_member (moves : option (list RawMove)) (m : PokemonMove) :
  m ∈ extractMoves moves →
  truthy (move_name m) ∧ (has_level m → method m = "level-up"%string).
Proof.
  destruct moves as [raw|]; simpl; [|by intros ?%elem_of_nil].
  intros Hm.
  assert (Hin : m ∈ levelUpMoves raw).
  { apply elem_of_app in Hm as [Hm|Hm].
    - apply elem_of_take in Hm as (i & Hm & _).
      apply list_elem_of_lookup_2 in Hm. unfold sortedLevelUp in Hm.
      apply elem_of_sort_by, list_elem_of_filter in Hm. tauto.
    - unfold otherMoves in Hm. apply elem_of_take in Hm as (i & Hm & _).
      apply list_elem_of_lookup_2, list_elem_of_filter in Hm. tauto. }
  unfold levelUpMoves in Hin.
  apply list_elem_of_filter in Hin as [Hname Hin]. split; [done|].
  apply list_elem_of_fmap in Hin as (r & -> & _).
  unfold has_level, to_move. simpl.
  destruct (level_up_detail r) as [d|] eqn:Hd; [|by intros [? ?]].
  intros _. unfold level_up_detail in Hd.
  destruct (version_group_details r) as [ds|]; [|done].
  apply find_some in Hd as [_ Hd]. unfold is_level_up in Hd.
  destruct d as [[mth|] lvl]; simpl in *; [|done].
  by apply String.eqb_eq in Hd.
Qed.

(** Every move that [extractMoves] returns has a name, and one that has a
    learn level was learnt by level-up. *)
Theorem extractMoves_entries (moves : option (list RawMove)) (m : PokemonMove) :
  m ∈ extractMoves moves →
  truthy (move_name m) ∧ (has_level m → method m = "level-up"%string).
Proof. apply extractMoves_member. Qed.

Lemma extractMoves_entries_witness :
  let m := to_move (raw_level_up (Some "tackle"%string) 1) in
  m ∈ extractMoves (Some [raw_machine "cut"; raw_level_up (Some "tackle"%string) 1])
  ∧ truthy (move_name m) ∧ method m = "level-up"%string.
Proof.
  intros m.
  assert (Hm : m ∈ extractMoves
                 (Some [raw_machine "cut"; raw_level_up (Some "tackle"%string) 1])).
  { by apply list_elem_of_lookup_2 with 0%nat. }
  destruct (extractMoves_entries _ _ Hm) as [Hname Hmethod].
  split_and!; [exact Hm|exact Hname|].
  apply Hmethod. by eexists.
Defined.

Lemma formatName_app s1 s2 :
  formatName (s1 +:+ s2) = formatName s1 +:+ formatName s2.
Proof. induction s1 as [|c s1 IH]; simpl; [done|]. by rewrite IH. Qed.

Lemma formatName_id s :
  "-"%char ∉ list_ascii_of_string s → formatName s = s.
Proof.
  induction s as [|c s IH]; simpl; [done|].
  intros [Hc Hs]%not_elem_of_cons. rewrite IH by done.
  destruct (Ascii.eqb_spec c "-"); [by destruct Hc|done].
Qed.

(** [formatName] keeps the length of a name, leaves no hyphen in it, changes
    nothing in a name without hyphens and so is idempotent. *)
Theorem formatName_no_hyphen (s : string) :
  String.length (formatName s) = String.length s
  ∧ ("-"%char ∉ list_ascii_of_string (formatName s))
  ∧ (("-"%char ∉ list_ascii_of_string s) → formatName s = s)
  ∧ formatName (formatName s) = formatName s.
Proof.
  split_and!.
  - apply formatName_length.
  - apply formatName_hyphen_free.
  - apply formatName_id.
  - apply formatName_id, formatName_hyphen_free.
Qed.

Lemma formatName_no_hyphen_witness :
  formatName "mt-moon-1f" = "mt moon 1f"%string
  ∧ formatName "mt moon 1f" = "mt moon 1f"%string.
Proof.
  destruct (formatName_no_hyphen "mt moon 1f") as (_ & _ & Hid & _).
  split; [reflexivity|]. apply Hid.
  intros Hin. apply list_elem_of_In in Hin. vm_compute in Hin.
  repeat (destruct Hin as [Hin|Hin]; [discriminate Hin|]). exact Hin.
Defined.

Lemma preorder_link species evolutions depth :
  preorder depth (Link species (Some evolutions))
  = (species, depth) :: (evolutions ≫= preorder (S depth)).
Proof. reflexivity. Qed.

Lemma preorder_stage_ge node : ∀ depth s k,
  (s, k) ∈ preorder depth node → (depth ≤ k)%nat.
Proof.
  induction node as [|species|species evolutions IH] using ChainLink_tree_ind;
    intros depth s k Hin.
  - by apply elem_of_nil in Hin.
  - apply list_elem_of_singleton in Hin. by simplify_eq.
  - rewrite preorder_link in Hin. apply elem_of_cons in Hin as [?|Hin].
    + by simplify_eq.
    + apply list_elem_of_bind in Hin as (c & Hin & Hc).
      apply (proj1 (Forall_forall _ _) IH c Hc) in Hin. lia.
Qed.

(** The stages of a flattened tree leave no gap. *)
Lemma preorder_contiguous node : ∀ depth s k j,
  (s, k) ∈ preorder depth node → (depth ≤ j ≤ k)%nat →
  ∃ s', (s', j) ∈ preorder depth node.
Proof.
  induction node as [|species|species evolutions IH] using ChainLink_tree_ind;
    intros depth s k j Hin Hj.
  - by apply elem_of_nil in Hin.
  - apply list_elem_of_singleton in Hin. injection Hin as -> ->.
    assert (j = depth) as -> by lia. exists species.
    by apply list_elem_of_singleton.
  - rewrite preorder_link in *.
    destruct (decide (j = depth)) as [->|Hne].
    { exists species. apply elem_of_cons. by left. }
    apply elem_of_cons in Hin as [?|Hin]; [simplify_eq; lia|].
    apply list_elem_of_bind in Hin as (c & Hin & Hc).
    destruct (proj1 (Forall_forall _ _) IH c Hc (S depth) s k j Hin) as [s' Hs'];
      [lia|].
    exists s'. apply elem_of_cons. right.
    apply list_elem_of_bind. by exists c.
Qed.

Lemma preorder_root species evolutions depth :
  preorder depth (Link species evolutions)
  = (species, depth) :: tail (preorder depth (Link species evolutions)).
Proof. reflexivity. Qed.

Lemma preorder_children_deeper species evolutions depth s k :
  (s, k) ∈ tail (preorder depth (Link species evolutions)) → (S depth ≤ k)%nat.
Proof.
  destruct evolutions as [evolutions|].
  - rewrite preorder_link. simpl. intros Hin.
    apply list_elem_of_bind in Hin as (c & Hin & _).
    by apply preorder_stage_ge in Hin.
  - simpl. by intros ?%elem_of_nil.
Qed.

Lemma of_stage_root species evolutions :
  of_stage 0 (traverse (Link species evolutions) 0 []) = [chain_entry species 0].
Proof.
  rewrite traverse_preorder, preorder_root. unfold of_stage, entries_of.
  rewrite app_nil_l, fmap_cons, filter_cons_True by done. f_equal.
  apply filter_none, Forall_forall. intros e He.
  apply list_elem_of_fmap in He as ([s k] & -> & Hin). simpl.
  apply preorder_children_deeper in Hin. lia.
Qed.

Lemma traverse_contiguous node e j :
  e ∈ traverse node 0 [] → (j ≤ stage e)%nat →
  ∃ e', e' ∈ traverse node 0 [] ∧ stage e' = j.
Proof.
  intros He Hj. rewrite traverse_preorder in *. simpl in *.
  apply list_elem_of_fmap in He as ([s k] & -> & Hin). simpl in Hj.
  destruct (preorder_contiguous node 0 s k j Hin) as [s' Hs']; [lia|].
  exists (chain_entry s' j). split; [|done].
  apply list_elem_of_fmap. by exists (s', j).
Qed.

(** The chain that [traverse] builds for a tree with a root starts with the
    root at stage 0, has no other node at stage 0, and its stages leave no
    gap: below a stage that occurs every stage occurs; a [null] tree gives
    the empty chain. *)
Theorem traverse_stages (node : ChainLink) :
  (node = LinkNull → traverse node 0 [] = [])
  ∧ (∀ species evolutions, node = Link species evolutions →
       head (traverse node 0 []) = Some (chain_entry species 0)
       ∧ of_stage 0 (traverse node 0 []) = [chain_entry species 0])
  ∧ (∀ e j, e ∈ traverse node 0 [] → (j ≤ stage e)%nat →
       ∃ e', e' ∈ traverse node 0 [] ∧ stage e' = j).
Proof.
  split_and!.
  - by intros ->.
  - intros species evolutions ->. split; [|apply of_stage_root].
    rewrite traverse_preorder. by destruct evolutions.
  - intros e j. apply traverse_contiguous.
Qed.

Lemma traverse_stages_witness :
  head (traverse eevee_chain 0 [])
  = Some {| node_id := Some 133; node_name := "eevee"; stage := 0 |}
  ∧ ∃ e', e' ∈ traverse eevee_chain 0 [] ∧ stage e' = 0%nat.
Proof.
  destruct (traverse_stages eevee_chain) as (_ & Hroot & Hgap).
  split.
  - exact (proj1 (Hroot _ _ eq_refl)).
  - apply (Hgap {| node_id := Some 135; node_name := "jolteon"; stage := 1 |}).
    + by apply list_elem_of_lookup_2 with 3%nat.
    + simpl. lia.
Defined.

(** With a non-empty URL each of the two helpers makes exactly one request,
    for that URL.  It returns the flattened chain, or the collected names,
    of an ok response; for a response that is not ok it throws the error of
    [fetchJson], whose message names the URL, the status and the status
    text; a rejected request is passed on as it is.  Nothing is retried or
    swallowed at this level. *)
Theorem helpers_request_once
    (remote_chain : string → Response EvolutionChainData)
    (remote_encounters : string → Response (list Encounter)) (u : string) :
  truthy u →
  (fetchEvolutionChain remote_chain (UrlString u)).1 = [EvFetch u]
  ∧ (fetchLocations remote_encounters (UrlString u)).1 = [EvFetch u]
  ∧ (∀ data, remote_chain u = Ok data →
       (fetchEvolutionChain remote_chain (UrlString u)).2
       = Returned (traverse (chain data) 0 []))
  ∧ (∀ data, remote_encounters u = Ok data →
       (fetchLocations remote_encounters (UrlString u)).2
       = Returned (collect data [] 0).1)
  ∧ (∀ status statusText, remote_chain u = NotOk status statusText →
       (fetchEvolutionChain remote_chain (UrlString u)).2
       = Thrown ("Failed to fetch " +:+ u +:+ ": " +:+ pretty status
                 +:+ " " +:+ statusText))
  ∧ (∀ status statusText, remote_encounters u = NotOk status statusText →
       (fetchLocations remote_encounters (UrlString u)).2
       = Thrown ("Failed to fetch " +:+ u +:+ ": " +:+ pretty status
                 +:+ " " +:+ statusText))
  ∧ (∀ message, remote_chain u = Rejected message →
       (fetchEvolutionChain remote_chain (UrlString u)).2 = Thrown message)
  ∧ (∀ message, remote_encounters u = Rejected message →
       (fetchLocations remote_encounters (UrlString u)).2 = Thrown message)
  ∧ ((∃ e, (fetchEvolutionChain remote_chain (UrlString u)).2 = Thrown e)
     ↔ ∀ data, remote_chain u ≠ Ok data)
  ∧ ((∃ e, (fetchLocations remote_encounters (UrlString u)).2 = Thrown e)
     ↔ ∀ data, remote_encounters u ≠ Ok data).
Proof.
  intros Hu. unfold fetchEvolutionChain, fetchLocations, url_truthy, fetchJson.
  rewrite decide_True by done. simpl.
  destruct (remote_chain u) as [c|sc tc|mc],
    (remote_encounters u) as [d|sd td|md]; simpl;
    split_and!; try done;
    try (by intros ? [= <-]); try (by intros ? ? [= <- <-]);
    try (split; [by intros [? ?]|by intros H; destruct (H _ eq_refl)]);
    try (split; [done|by eexists]).
Qed.

Lemma helpers_request_once_witness :
  (fetchLocations (λ _, NotOk 404 "Not Found")
     (UrlString "https://pokeapi.co/api/v2/pokemon/7/encounters")).2
  = Thrown
      "Failed to fetch https://pokeapi.co/api/v2/pokemon/7/encounters: 404 Not Found".
Proof.
  destruct (helpers_request_once (λ _, NotOk 404 "Not Found")
              (λ _, NotOk 404 "Not Found")
              "https://pokeapi.co/api/v2/pokemon/7/encounters")
    as (_ & _ & _ & _ & _ & Hthrow & _); [discriminate|].
  exact (Hthrow 404 "Not Found"%string eq_refl).
Defined.

(** Every name that [fetchLocations] collects is the humanized name of one of
    the entries and has no hyphen left; and when fewer than 12 names come
    back, no named entry is missing from them. *)
Theorem collected_locations (data : list Encounter) :
  let locations := (collect data [] 0).1 in
  (∀ l, l ∈ locations →
     ("-"%char ∉ list_ascii_of_string l)
     ∧ ∃ entry n, entry ∈ data ∧ location_area_name entry = Some n
                  ∧ truthy n ∧ l = formatName n)
  ∧ ((length locations < 12)%nat →
     ∀ entry n, entry ∈ data → location_area_name entry = Some n →
                truthy n → formatName n ∈ locations).
Proof.
  intros locations. split.
  - apply collected_from_entries.
  - intros Hlen entry n He Hn Ht.
    destruct (collect_result data) as (Htake & _). fold locations in Htake.
    assert (locations = first_seen (area_names data)) as ->.
    { rewrite Htake. apply take_ge. rewrite Htake, length_take in Hlen. lia. }
    apply first_seen_elem_of, area_names_spec. by exists entry, n.
Qed.

Lemma collected_locations_witness :
  "viridian forest area"%string
  ∈ (collect [encounter "viridian-forest-area"; encounter "route-2-area"] [] 0).1.
Proof.
  destruct (collected_locations
              [encounter "viridian-forest-area"; encounter "route-2-area"])
    as (_ & Hall).
  apply (Hall ltac:(vm_compute; lia) (encounter "viridian-forest-area")
              "viridian-forest-area"%string).
  - apply elem_of_cons. by left.
  - reflexivity.
  - discriminate.
Defined.

(** ** [groupEvolutionChain] *)
Section grouping.
Local Open Scope nat_scope.

Ltac past_the_end :=
  first [apply lookup_ge_None_2; lia | symmetry; apply lookup_ge_None_2; lia].

Lemma js_assign_length {A} i (x : A) arr :
  length (js_assign i x arr) = length arr `max` S i.
Proof.
  unfold js_assign. destruct (Nat.ltb_spec i (length arr)).
  - rewrite length_insert. lia.
  - rewrite !length_app, length_replicate. simpl. lia.
Qed.

Lemma js_assign_lookup {A} i (x : A) arr k :
  js_assign i x arr !! k
  = if decide (k = i) then Some (Some x)
    else if decide (k < length arr) then arr !! k
    else if decide (k < i) then Some None else None.
Proof.
  unfold js_assign. destruct (Nat.ltb_spec i (length arr)) as [Hlt|Hge].
  - rewrite list_lookup_insert.
    repeat case_decide; destruct_and?; try done; try lia; past_the_end.
  - repeat case_decide; subst.
    + rewrite lookup_app_r, lookup_app_r by (rewrite ?length_replicate; lia).
      rewrite length_replicate. by replace (_ - _ - _) with 0 by lia.
    + by rewrite lookup_app_l.
    + rewrite lookup_app_r, lookup_app_l by (rewrite ?length_replicate; lia).
      apply lookup_replicate_2. lia.
    + apply lookup_ge_None_2. rewrite !length_app, length_replicate. simpl. lia.
Qed.

Lemma group_node_length groups n :
  length (group_node groups n) = length groups `max` S (stage n).
Proof.
  unfold group_node.
  destruct (groups !! stage n) as [[g|]|] eqn:Hs.
  - rewrite Hs, length_insert. apply lookup_lt_Some in Hs. lia.
  - rewrite js_assign_lookup, decide_True by done.
    by rewrite length_insert, js_assign_length.
  - rewrite js_assign_lookup, decide_True by done.
    by rewrite length_insert, js_assign_length.
Qed.

Lemma group_node_lookup groups n k :
  group_node groups n !! k
  = if decide (k = stage n) then Some (Some (group_at groups k ++ [n]))
    else if decide (k < length groups) then groups !! k
    else if decide (k < stage n) then Some None else None.
Proof.
  unfold group_node, group_at.
  destruct (groups !! stage n) as [[g|]|] eqn:Hs.
  - rewrite Hs. pose proof (lookup_lt_Some _ _ _ Hs).
    rewrite list_lookup_insert.
    repeat case_decide; destruct_and?; subst; rewrite ?Hs; try done; try lia;
      past_the_end.
  - pose proof (lookup_lt_Some _ _ _ Hs).
    rewrite js_assign_lookup, decide_True by done.
    rewrite list_lookup_insert, js_assign_length, js_assign_lookup.
    repeat case_decide; destruct_and?; subst; rewrite ?Hs; try done; try lia;
      past_the_end.
  - apply lookup_ge_None_1 in Hs as Hge.
    rewrite js_assign_lookup, decide_True by done.
    rewrite list_lookup_insert, js_assign_length, js_assign_lookup.
    repeat case_decide; destruct_and?; subst; rewrite ?Hs; try done; try lia;
      past_the_end.
Qed.

Lemma max_stage_snoc (chain : list PokemonEvolutionNode) n :
  max_list_with (λ n, S (stage n)) (chain ++ [n])
  = max_list_with (λ n, S (stage n)) chain `max` S (stage n).
Proof. induction chain as [|m chain IH]; simpl; [lia|]. rewrite IH. lia. Qed.

Lemma of_stage_bound k (chain : list PokemonEvolutionNode) :
  of_stage k chain ≠ [] → k < max_list_with (λ n, S (stage n)) chain.
Proof.
  induction chain as [|m chain IH]; [done|]. unfold of_stage in *.
  rewrite filter_cons. simpl. case_decide; [lia|]. intros ?%IH. lia.
Qed.

Lemma of_stage_snoc k chain n :
  of_stage k (chain ++ [n])
  = of_stage k chain ++ (if decide (k = stage n) then [n] else []).
Proof.
  unfold of_stage. rewrite filter_app. f_equal.
  rewrite filter_cons, filter_nil. repeat case_decide; done || congruence.
Qed.

Lemma group_node_grouped groups seen n :
  grouped groups seen → grouped (group_node groups n) (seen ++ [n]).
Proof.
  intros [Hlen Hgroups]. split.
  - rewrite group_node_length, max_stage_snoc. lia.
  - intros k Hk. rewrite group_node_length in Hk.
    rewrite group_node_lookup, of_stage_snoc.
    destruct (decide (k = stage n)) as [->|Hne].
    + rewrite decide_False by (by intros ?%app_eq_nil; destruct_and?).
      do 3 f_equal. unfold group_at.
      destruct (decide (stage n < length groups)) as [Hlt|Hge].
      * rewrite Hgroups by done. by case_decide.
      * rewrite lookup_ge_None_2 by lia.
        destruct (of_stage (stage n) seen) eqn:Hof; [done|].
        assert (stage n < max_list_with (λ n, S (stage n)) seen)
          by (apply of_stage_bound; by rewrite Hof).
        lia.
    + rewrite app_nil_r. case_decide.
      * by apply Hgroups.
      * rewrite decide_True by lia. rewrite decide_True; [done|].
        destruct (of_stage k seen) eqn:Hof; [done|].
        assert (k < max_list_with (λ n, S (stage n)) seen)
          by (apply of_stage_bound; by rewrite Hof).
        lia.
Qed.

Lemma groupEvolutionChain_grouped chain :
  grouped (groupEvolutionChain chain) chain.
Proof.
  unfold groupEvolutionChain.
  induction chain as [|n chain IH] using rev_ind.
  - split; [done|]. simpl. lia.
  - rewrite foldl_snoc. by apply group_node_grouped.
Qed.

(** [groupEvolutionChain] makes one column per stage up to the highest stage
    of the chain; the column of a stage holds the nodes of that stage in the
    order of the chain, a stage without nodes is a hole, and every node of
    the chain is in the column of its stage. *)
Theorem groupEvolutionChain_columns (chain : list PokemonEvolutionNode) :
  let groups := groupEvolutionChain chain in
  length groups = max_list_with (λ n, S (stage n)) chain
  ∧ (∀ k g, groups !! k = Some (Some g) ↔ g = of_stage k chain ∧ g ≠ [])
  ∧ (∀ k, groups !! k = Some None ↔ k < length groups ∧ of_stage k chain = [])
  ∧ (∀ n, n ∈ chain →
          ∃ g, groups !! stage n = Some (Some g) ∧ n ∈ g).
Proof.
  intros groups.
  destruct (groupEvolutionChain_grouped chain) as [Hlen Hgroups].
  fold groups in Hlen, Hgroups.
  assert (Hsome : ∀ k, of_stage k chain ≠ [] →
            groups !! k = Some (Some (of_stage k chain))).
  { intros k Hk. rewrite Hgroups, decide_False; [done..|].
    rewrite Hlen. by apply of_stage_bound. }
  split_and!.
  - done.
  - intros k g. split.
    + intros Hg. pose proof (lookup_lt_Some _ _ _ Hg) as Hk.
      rewrite Hgroups in Hg by done. case_decide; by simplify_eq.
    + intros [-> Hne]. by apply Hsome.
  - intros k. split.
    + intros Hg. pose proof (lookup_lt_Some _ _ _ Hg) as Hk.
      rewrite Hgroups in Hg by done. case_decide; by simplify_eq.
    + intros [Hk Hnil]. rewrite Hgroups by done. by rewrite decide_True.
  - intros n Hn. exists (of_stage (stage n) chain).
    assert (Hin : n ∈ of_stage (stage n) chain)
      by (by apply list_elem_of_filter).
    split; [|done]. apply Hsome. intros Hnil. rewrite Hnil in Hin.
    by apply elem_of_nil in Hin.
Qed.

Lemma groupEvolutionChain_columns_witness :
  ∃ g, groupEvolutionChain (traverse eevee_chain 0 []) !! 1 = Some (Some g)
       ∧ node_name <$> g = ["vaporeon"; ""; "jolteon"]%string.
Proof.
  destruct (groupEvolutionChain_columns (traverse eevee_chain 0 []))
    as (_ & Hcol & _).
  exists (of_stage 1 (traverse eevee_chain 0 [])). split; [|reflexivity].
  apply Hcol. split; [reflexivity|discriminate].
Defined.

(** On a chain that [traverse] built, [groupEvolutionChain] leaves no hole:
    every column up to the last has nodes, and the first column is the root
    alone. *)
Theorem traverse_columns (node : ChainLink) :
  let groups := groupEvolutionChain (traverse node 0 []) in
  (∀ k, k < length groups → ∃ g, groups !! k = Some (Some g) ∧ g ≠ [])
  ∧ (∀ species evolutions, node = Link species evolutions →
       groups !! 0 = Some (Some [chain_entry species 0]))
  ∧ (node = LinkNull → groups = []).
Proof.
  intros groups.
  destruct (groupEvolutionChain_grouped (traverse node 0 []))
    as [Hlen Hgroups]. fold groups in Hlen, Hgroups.
  split_and!.
  - intros k Hk. rewrite Hgroups by done.
    destruct (decide (of_stage k (traverse node 0 []) = [])) as [Hnil|Hne];
      [|by eexists].
    exfalso.
    assert (Hmax : ∃ e, e ∈ traverse node 0 [] ∧ k ≤ stage e).
    { rewrite Hlen in Hk. clear -Hk.
      induction (traverse node 0 []) as [|m l IH]; simpl in Hk; [lia|].
      destruct (decide (k ≤ stage m)).
      - exists m. split; [apply elem_of_cons; by left|done].
      - destruct IH as (e & He & Hle); [lia|].
        exists e. split; [apply elem_of_cons; by right|done]. }
    destruct Hmax as (e & He & Hle).
    destruct (traverse_contiguous node e k He Hle) as (e' & He' & Hk').
    assert (Hin : e' ∈ of_stage k (traverse node 0 []))
      by (by apply list_elem_of_filter).
    rewrite Hnil in Hin. by apply elem_of_nil in Hin.
  - intros species evolutions ->.
    pose proof (of_stage_root species evolutions) as Hzero.
    rewrite Hgroups, Hzero; [done|].
    rewrite Hlen. apply of_stage_bound. by rewrite Hzero.
  - by intros ->.
Qed.

Lemma traverse_columns_witness :
  groupEvolutionChain (traverse eevee_chain 0 []) !! 0
  = Some (Some [ {| node_id := Some 133%Z; node_name := "eevee"; stage := 0 |} ]).
Proof.
  destruct (traverse_columns eevee_chain) as (_ & Hroot & _).
  exact (Hroot _ _ eq_refl).
Defined.
End grouping.

(** ** The identifier in a species URL *)

Lemma list_ascii_of_string_app s1 s2 :
  list_ascii_of_string (s1 +:+ s2)
  = list_ascii_of_string s1 ++ list_ascii_of_string s2.
Proof. induction s1 as [|c s1 IH]; simpl; [done|]. by rewrite IH. Qed.

Lemma span_digits_run ds c rest :
  Forall (λ d, is_digit d) ds → is_digit c = false →
  span_digits (ds ++ c :: rest) = (ds, c :: rest).
Proof.
  intros Hds Hc. induction Hds as [|d ds Hd _ IH]; simpl.
  - by rewrite Hc.
  - apply Is_true_true in Hd. by rewrite Hd, IH.
Qed.

Lemma digits_nonneg ds : ∀ acc,
  0 ≤ acc → Forall (λ d, is_digit d) ds →
  0 ≤ foldl (λ acc c, 10 * acc + digit_value c) acc ds.
Proof.
  induction ds as [|d ds IH]; intros acc Hacc Hds; simpl; [done|].
  apply Forall_cons in Hds as [Hd Hds]. apply IH; [|done].
  unfold is_digit, digit_value in *.
  apply andb_True in Hd as [Hlo _]. apply Is_true_true, Nat.leb_le in Hlo. lia.
Qed.

Lemma number_of_digits_nonneg ds :
  Forall (λ d, is_digit d) ds → 0 ≤ number_of_digits ds.
Proof. by apply digits_nonneg. Qed.

Lemma keep_last_char d (l : list ascii) :
  d ≠ "/"%char →
  match d :: l with "/"%char :: r' => r' | _ => d :: l end = d :: l.
Proof. intros Hd. destruct d as [[] [] [] [] [] [] [] []]; done. Qed.

(** A URL that ends in a slash and a run of digits gives the number those
    digits spell, whether or not one more slash follows, and the number is
    not negative.  This is for digits that spell a number below 2^53, which
    [Number] reads exactly; a longer run is rounded by [Number] and is left
    out here. *)
Theorem id_of_url_digits (base : string) (ds : list ascii) :
  ds ≠ [] → Forall (λ d, is_digit d) ds →
  number_of_digits ds < 2 ^ 53 →
  let digits := string_of_list_ascii ds in
  id_of_url (base +:+ "/" +:+ digits) = Some (number_of_digits ds)
  ∧ id_of_url (base +:+ "/" +:+ digits +:+ "/") = Some (number_of_digits ds)
  ∧ 0 ≤ number_of_digits ds < 2 ^ 53.
Proof.
  intros Hne Hds Hexact digits.
  assert (Hrev : Forall (λ d, is_digit d) (rev ds)) by (by apply Forall_rev).
  assert (Hshape : ∃ d rds, rev ds = d :: rds ∧ is_digit d).
  { destruct (rev ds) as [|d rds] eqn:Hr.
    - apply (f_equal (@rev ascii)) in Hr. rewrite rev_involutive in Hr. done.
    - exists d, rds. split; [done|]. by apply Forall_cons in Hrev as [? _]. }
  destruct Hshape as (d & rds & Hr & Hd).
  assert (Hslash : d ≠ "/"%char) by (by intros ->).
  set (rbase := rev (list_ascii_of_string base)).
  assert (E1 : rev (list_ascii_of_string (base +:+ "/" +:+ digits))
               = d :: (rds ++ "/"%char :: rbase)).
  { unfold digits.
    rewrite !list_ascii_of_string_app, list_ascii_of_string_of_list_ascii.
    simpl. rewrite rev_app_distr. simpl. rewrite <- app_assoc.
    by rewrite Hr. }
  assert (E2 : rev (list_ascii_of_string (base +:+ "/" +:+ digits +:+ "/"))
               = "/"%char :: d :: (rds ++ "/"%char :: rbase)).
  { unfold digits.
    rewrite !list_ascii_of_string_app, list_ascii_of_string_of_list_ascii.
    simpl. rewrite rev_app_distr. simpl. rewrite rev_app_distr. simpl.
    rewrite <- app_assoc. by rewrite Hr. }
  assert (Hcore : span_digits (d :: (rds ++ "/"%char :: rbase))
                  = (d :: rds, "/"%char :: rbase)).
  { rewrite app_comm_cons, <- Hr. by apply span_digits_run. }
  split_and!.
  - unfold id_of_url. rewrite E1, keep_last_char, Hcore by done.
    by rewrite <- Hr, rev_involutive.
  - unfold id_of_url. rewrite E2. cbn [rev]. rewrite Hcore.
    by rewrite <- Hr, rev_involutive.
  - by apply number_of_digits_nonneg.
  - done.
Qed.

Lemma id_of_url_digits_witness :
  id_of_url "https://pokeapi.co/api/v2/pokemon-species/25"
  = id_of_url "https://pokeapi.co/api/v2/pokemon-species/25/".
Proof.
  destruct (id_of_url_digits "https://pokeapi.co/api/v2/pokemon-species"
              ["2"; "5"]%char) as (H1 & H2 & _);
    [discriminate|by repeat constructor|by vm_compute|].
  exact (eq_trans H1 (eq_sym H2)).
Defined.

(** ** The explorer: type toggles, active filters, keyboard *)

Lemma is_space_spec c : is_space c = true ↔ c ∈ ascii_white_space.
Proof.
  split.
  - intros Hc.
    destruct c as [[] [] [] [] [] [] [] []]; vm_compute in Hc;
      try discriminate Hc; unfold ascii_white_space;
      repeat first [apply list_elem_of_here | apply list_elem_of_further].
  - unfold ascii_white_space. intros Hc.
    repeat (apply elem_of_cons in Hc as [->|Hc]; [done|]).
    by apply elem_of_nil in Hc.
Qed.

Lemma drop_space_nil l : drop_space l = [] → Forall (λ c, is_space c) l.
Proof.
  induction l as [|c l IH]; simpl; [constructor|].
  destruct (is_space c) eqn:Hc; [|done].
  intros Hl. constructor; [by rewrite Hc|by apply IH].
Qed.

Lemma drop_space_spaces l :
  Forall (λ c, is_space c) (drop_space l) → Forall (λ c, is_space c) l.
Proof.
  induction l as [|c l IH]; simpl; [done|].
  destruct (is_space c) eqn:Hc.
  - intros Hl. constructor; [by rewrite Hc|by apply IH].
  - done.
Qed.

(** [trim] leaves nothing exactly of a blank text. *)
Lemma trim_blank s : trim s = ""%string ↔ blank s.
Proof.
  assert (Hblank : blank s ↔ Forall (λ c, is_space c) (list_ascii_of_string s)).
  { unfold blank. apply Forall_proper; [|done]. intros c.
    rewrite <- is_space_spec. symmetry. apply Is_true_true. }
  rewrite Hblank. split.
  - intros Htrim. apply (f_equal list_ascii_of_string) in Htrim.
    unfold trim in Htrim.
    rewrite list_ascii_of_string_of_list_ascii in Htrim. simpl in Htrim.
    apply (f_equal (@rev ascii)) in Htrim.
    rewrite rev_involutive in Htrim. simpl in Htrim.
    apply drop_space_nil, Forall_rev in Htrim.
    rewrite rev_involutive in Htrim. by apply drop_space_spaces.
  - intros Hs. unfold trim. by rewrite (drop_space_all _ Hs).
Qed.

Section explorer.
Local Open Scope nat_scope.

Lemma filter_out_length (t : string) (l : list string) :
  NoDup l → t ∈ l → S (length (filter (λ item, item ≠ t) l)) = length l.
Proof.
  induction 1 as [|x l Hx Hnd IH]; intros Ht; [by apply elem_of_nil in Ht|].
  apply elem_of_cons in Ht as [->|Ht].
  - rewrite filter_cons_False by (by intros ?). simpl. f_equal.
    f_equal. apply filter_all, Forall_forall. by intros y Hy ->.
  - rewrite filter_cons_True by (by intros ->). simpl. by rewrite IH.
Qed.

(** [toggleType] flips whether the type is selected and nothing else: the
    other types keep their state, the other filters their value, a selection
    without duplicates stays without duplicates; toggling a type on and off
    again restores the filters; and the count of active filters moves by
    one. *)
Theorem toggleType_flips (type : string) (prev : FilterState) :
  let next := toggleType type prev in
  (type ∈ selectedTypes next ↔ type ∉ selectedTypes prev)
  ∧ (∀ t, t ≠ type → (t ∈ selectedTypes next ↔ t ∈ selectedTypes prev))
  ∧ (NoDup (selectedTypes prev) → NoDup (selectedTypes next))
  ∧ (searchTerm next = searchTerm prev
     ∧ filter_generation next = filter_generation prev
     ∧ legendary next = legendary prev ∧ sortBy next = sortBy prev)
  ∧ (type ∉ selectedTypes prev →
       toggleType type next = prev
       ∧ activeFiltersCount next = S (activeFiltersCount prev))
  ∧ (type ∈ selectedTypes prev → NoDup (selectedTypes prev) →
       S (activeFiltersCount next) = activeFiltersCount prev).
Proof.
  intros next. subst next. unfold toggleType.
  destruct (bool_decide_reflect (type ∈ selectedTypes prev)) as [Hin|Hout];
    simpl; split_and!; try done.
  - rewrite list_elem_of_filter. split; [by intros [? _]|done].
  - intros t Ht. rewrite list_elem_of_filter. tauto.
  - apply NoDup_filter.
  - intros Hin' Hnd. unfold activeFiltersCount. simpl.
    pose proof (filter_out_length type _ Hnd Hin). lia.
  - rewrite elem_of_app, list_elem_of_singleton. tauto.
  - intros t Ht. rewrite elem_of_app, list_elem_of_singleton. tauto.
  - intros Hnd. apply NoDup_app. split_and!; [done| |apply NoDup_singleton].
    intros x Hx ->%list_elem_of_singleton. done.
  - intros _. split.
    + rewrite bool_decide_eq_true_2
        by (rewrite elem_of_app, list_elem_of_singleton; tauto).
      rewrite filter_app, filter_cons_False, filter_nil, app_nil_r
        by (by intros ?).
      rewrite filter_all by (apply Forall_forall; by intros y Hy ->).
      by destruct prev.
    + unfold activeFiltersCount. simpl. rewrite length_app. simpl. lia.
Qed.

Lemma toggleType_flips_witness :
  toggleType "fire" (toggleType "fire" (sample_filters ["grass"]%string))
  = sample_filters ["grass"]%string
  ∧ activeFiltersCount (toggleType "grass" (sample_filters ["grass"]%string))
    = 0.
Proof.
  destruct (toggleType_flips "fire" (sample_filters ["grass"]%string))
    as (_ & _ & _ & _ & Hon & _).
  destruct (toggleType_flips "grass" (sample_filters ["grass"]%string))
    as (_ & _ & _ & _ & _ & Hoff).
  split.
  - apply Hon. intros Hin. apply list_elem_of_singleton in Hin. discriminate.
  - assert (Hs : S (activeFiltersCount
                      (toggleType "grass" (sample_filters ["grass"]%string)))
                 = activeFiltersCount (sample_filters ["grass"]%string)).
    { apply Hoff; [by apply list_elem_of_singleton|].
      apply NoDup_singleton. }
    exact (eq_add_S _ 0 Hs).
Defined.

(** For a search term of ASCII characters, the count of active filters is
    zero exactly when nothing narrows or reorders the list: the search term
    is blank, no type is selected, the generation and legendary selectors
    are on "all" and the sort is the default one.  For every search term,
    [clearFilters] brings the count to zero, and the count is never less
    than the number of selected types and at most four more. *)
Theorem activeFiltersCount_zero (f : FilterState) (st : Explorer) :
  (is_ascii_text (searchTerm f) = true →
     (activeFiltersCount f = 0 ↔
        blank (searchTerm f) ∧ selectedTypes f = []
        ∧ generation_is_all (filter_generation f) = true
        ∧ legendary f = LegAll ∧ sortBy f = IdAsc))
  ∧ activeFiltersCount (filters (clearFilters st)) = 0
  ∧ length (selectedTypes f) ≤ activeFiltersCount f
      ≤ length (selectedTypes f) + 4.
Proof.
  unfold activeFiltersCount. split_and!.
  - intros _. rewrite <- trim_blank. split.
    + intros Hzero.
      destruct (decide (truthy (trim (searchTerm f)))) as [|Hblank]; [lia|].
      destruct (generation_is_all (filter_generation f)); [|lia].
      destruct (decide (legendary f = LegAll)); [|lia].
      destruct (decide (sortBy f = sortBy DEFAULT_FILTERS)); [|lia].
      split_and!; try done.
      * unfold truthy in Hblank. by destruct (decide (trim (searchTerm f) = "")).
      * apply length_zero_iff_nil. lia.
    + intros (Hblank & -> & -> & Hleg & Hsort).
      rewrite decide_False
        by (unfold truthy; rewrite Hblank; intros Hne; by apply Hne).
      by rewrite !decide_True.
  - reflexivity.
  - repeat case_match; lia.
  - repeat case_match; lia.
Qed.

Lemma highlight_down (suggestions : list PokemonEntry) st :
  suggestions ≠ [] →
  highlight_ok (length suggestions) (highlightedIndex st) →
  highlightedIndex (handleKeyDown suggestions ArrowDown st)
  = Some match highlightedIndex st with
         | None => 0
         | Some i => if i =? Z.of_nat (length suggestions) - 1 then 0
                     else i + 1
         end%Z.
Proof.
  intros Hne Hok. unfold handleKeyDown.
  assert (0 < length suggestions) by (destruct suggestions; [done|simpl; lia]).
  destruct (Z.eqb_spec (Z.of_nat (length suggestions)) 0); [lia|]. simpl.
  destruct (highlightedIndex st) as [i|]; [|done]. simpl in Hok. f_equal.
  destruct (Z.eqb_spec i (Z.of_nat (length suggestions) - 1)) as [->|].
  - replace (_ - 1 + 1)%Z with (Z.of_nat (length suggestions)) by lia.
    apply Z.rem_same. lia.
  - apply Z.rem_small. lia.
Qed.

Lemma highlight_up (suggestions : list PokemonEntry) st :
  suggestions ≠ [] →
  highlight_ok (length suggestions) (highlightedIndex st) →
  highlightedIndex (handleKeyDown suggestions ArrowUp st)
  = Some match highlightedIndex st with
         | None => Z.of_nat (length suggestions) - 1
         | Some i => if i =? 0 then Z.of_nat (length suggestions) - 1
                     else i - 1
         end%Z.
Proof.
  intros Hne Hok. unfold handleKeyDown.
  assert (0 < length suggestions) by (destruct suggestions; [done|simpl; lia]).
  destruct (Z.eqb_spec (Z.of_nat (length suggestions)) 0); [lia|]. simpl.
  destruct (highlightedIndex st) as [i|]; [|done]. simpl in Hok. f_equal.
  destruct (Z.eqb_spec i 0) as [->|]; [done|].
  destruct (Z.leb_spec i 0); [lia|done].
Qed.

(** With suggestions on screen and the highlight on none or on one of them,
    every key leaves the highlight on none or on one of them; the arrow keys
    open the list, start from the first (down) or the last (up) suggestion,
    move by one with wrap-around, and undo each other. *)
Theorem arrow_keys_cycle (suggestions : list PokemonEntry) (st : Explorer) :
  suggestions ≠ [] →
  highlight_ok (length suggestions) (highlightedIndex st) →
  let n := Z.of_nat (length suggestions) in
  let down := handleKeyDown suggestions ArrowDown in
  let up := handleKeyDown suggestions ArrowUp in
  (∀ key, highlight_ok (length suggestions)
            (highlightedIndex (handleKeyDown suggestions key st)))
  ∧ (highlightedIndex st = None →
       highlightedIndex (down st) = Some 0%Z
       ∧ highlightedIndex (up st) = Some (n - 1)%Z)
  ∧ (∀ i, highlightedIndex st = Some i →
       highlightedIndex (down st)
       = Some (if (i =? n - 1)%Z then 0 else i + 1)%Z
       ∧ highlightedIndex (up st)
         = Some (if (i =? 0)%Z then n - 1 else i - 1)%Z
       ∧ highlightedIndex (up (down st)) = Some i
       ∧ highlightedIndex (down (up st)) = Some i)
  ∧ autocompleteOpen (down st) = true ∧ autocompleteOpen (up st) = true
  ∧ filters (down st) = filters st ∧ filters (up st) = filters st.
Proof.
  intros Hne Hok n down up.
  assert (Hpos : 0 < length suggestions)
    by (destruct suggestions; [done|simpl; lia]).
  assert (Hn : (n =? 0)%Z = false) by (apply Z.eqb_neq; unfold n; lia).
  assert (Hdown : highlight_ok (length suggestions) (highlightedIndex (down st))).
  { unfold down. rewrite highlight_down by done. simpl.
    destruct (highlightedIndex st) as [i|]; simpl in *; [|lia].
    destruct (Z.eqb_spec i (Z.of_nat (length suggestions) - 1)); lia. }
  assert (Hup : highlight_ok (length suggestions) (highlightedIndex (up st))).
  { unfold up. rewrite highlight_up by done. simpl.
    destruct (highlightedIndex st) as [i|]; simpl in *; [|lia].
    destruct (Z.eqb_spec i 0); lia. }
  split_and!.
  - intros [| | | |]; try done.
    + unfold handleKeyDown. fold n. rewrite Hn.
      destruct (highlightedIndex st) as [i|] eqn:Hi; [|by rewrite Hi].
      destruct (js_index suggestions i); [done|by rewrite Hi].
    + unfold handleKeyDown. fold n. by rewrite Hn.
    + unfold handleKeyDown. fold n. by rewrite Hn.
  - intros Hnone. unfold down, up.
    rewrite highlight_down, highlight_up by done. by rewrite Hnone.
  - intros i Hi. rewrite Hi in Hok. simpl in Hok. fold n in Hok.
    assert (Hd : highlightedIndex (down st)
                 = Some (if (i =? n - 1)%Z then 0 else i + 1)%Z).
    { unfold down. rewrite highlight_down by (by rewrite ?Hi). by rewrite Hi. }
    assert (Hu : highlightedIndex (up st)
                 = Some (if (i =? 0)%Z then n - 1 else i - 1)%Z).
    { unfold up. rewrite highlight_up by (by rewrite ?Hi). by rewrite Hi. }
    split_and!; [done|done| |].
    + unfold up. rewrite highlight_up by done. rewrite Hd. fold n. f_equal.
      destruct (Z.eqb_spec i (n - 1)).
      * rewrite Z.eqb_refl. lia.
      * destruct (Z.eqb_spec (i + 1) 0); lia.
    + unfold down. rewrite highlight_down by done. rewrite Hu. fold n. f_equal.
      destruct (Z.eqb_spec i 0).
      * rewrite Z.eqb_refl. lia.
      * destruct (Z.eqb_spec (i - 1) (n - 1)); lia.
  - unfold down, handleKeyDown. fold n. rewrite Hn. simpl.
    by rewrite orb_true_r.
  - unfold up, handleKeyDown. fold n. rewrite Hn. simpl.
    by rewrite orb_true_r.
  - unfold down, handleKeyDown. fold n. by rewrite Hn.
  - unfold up, handleKeyDown. fold n. by rewrite Hn.
Qed.

Lemma arrow_keys_cycle_witness :
  let st := {| filters := sample_filters []; autocompleteOpen := false;
               highlightedIndex := Some 4%Z |} in
  highlightedIndex (handleKeyDown pi_fixture ArrowDown st) = Some 0%Z
  ∧ highlightedIndex
      (handleKeyDown pi_fixture ArrowUp (handleKeyDown pi_fixture ArrowDown st))
    = Some 4%Z.
Proof.
  intros st.
  destruct (arrow_keys_cycle pi_fixture st) as (_ & _ & Hmove & _);
    [discriminate|simpl; lia|].
  destruct (Hmove 4%Z eq_refl) as (Hd & _ & Hud & _).
  split; [exact Hd|exact Hud].
Defined.
End explorer.

(** ** More about the worker pool *)
Section pool_more.
Local Open Scope nat_scope.
Variable detail : nat → nat → option PokemonEntry.
Variable total : nat.

(** Whatever the schedule, the pool stays within its bounds: the cursor never
    passes the number of entries, [results] keeps its length, there are
    [min(CONCURRENCY, total)] workers and so never more calls in flight than
    that, a worker only holds an index of the array whose slot is still a
    hole, and no two workers hold the same index. *)
Theorem pool_bounds (CONCURRENCY : Z) (schedule : list nat) :
  let st := run detail total schedule (started detail total CONCURRENCY) in
  pointer st ≤ total
  ∧ length (results st) = total
  ∧ length (workers st) = pool_size total CONCURRENCY
  ∧ pool_size total CONCURRENCY ≤ total
  ∧ ((0 ≤ CONCURRENCY)%Z → (Z.of_nat (length (in_flight (workers st)))
                             ≤ CONCURRENCY)%Z)
  ∧ (∀ w ph i, workers st !! w = Some ph → phase_item ph = Some i →
       i < total ∧ results st !! i = Some Hole)
  ∧ (∀ w1 w2 ph1 ph2 i,
       workers st !! w1 = Some ph1 → workers st !! w2 = Some ph2 →
       phase_item ph1 = Some i → phase_item ph2 = Some i → w1 = w2).
Proof.
  intros st.
  destruct (started_inv detail total CONCURRENCY schedule)
    as [Hptr Hlen Hheld Huniq _ _ _]. fold st in Hptr, Hlen, Hheld, Huniq.
  pose proof (started_workers detail total CONCURRENCY schedule) as Hws.
  fold st in Hws.
  split_and!; try done.
  - unfold pool_size. lia.
  - intros Hc. pose proof (length_filter (λ ph, is_fetching ph) (workers st)).
    unfold in_flight. rewrite Hws in *. unfold pool_size in *. lia.
  - intros w ph i Hw Hi. destruct (Hheld _ _ _ Hw Hi) as (? & ? & _).
    split; [lia|done].
Qed.

End pool_more.

Section pool_counter.
Local Open Scope nat_scope.
Variable detail : nat → nat → option PokemonEntry.
Variable total : nat.

Lemma sum_moved {A} (f : A → nat) (l : list A) i x y :
  l !! i = Some x →
  sum_list_with f (<[i:=y]> l) + f x = sum_list_with f l + f y.
Proof.
  revert i. induction l as [|z l IH]; intros [|i] Hi; simplify_eq/=.
  - lia.
  - specialize (IH _ Hi). lia.
Qed.

Lemma progress_lines_app tr evs :
  progress_lines (tr ++ evs) = progress_lines tr ++ progress_lines evs.
Proof. apply omap_app. Qed.

Lemma tenth_completion c :
  (λ k, 10 * k) <$> seq 1 (S c / 10)
  = ((λ k, 10 * k) <$> seq 1 (c / 10))
    ++ (if decide (S c `mod` 10 = 0) then [S c] else []).
Proof.
  pose proof (Nat.div_mod_eq c 10). pose proof (Nat.div_mod_eq (S c) 10).
  pose proof (Nat.mod_upper_bound c 10). pose proof (Nat.mod_upper_bound (S c) 10).
  case_decide.
  - replace (S c / 10) with (c / 10 + 1) by lia.
    rewrite seq_app, fmap_app. f_equal. cbn [seq fmap list_fmap].
    f_equal. lia.
  - replace (S c / 10) with (c / 10) by lia. by rewrite app_nil_r.
Qed.

Lemma after_item_counted w st ph :
  workers st !! w = Some ph → holding ph = 1 → counted st →
  ∀ res tr, progress_lines tr = progress_lines (trace st) →
  counted (after_item w (mkPool (pointer st) (completed st) res (workers st) tr)).
Proof.
  intros Hw Hph [Hcnt Hprog] res tr Htr.
  split; unfold after_item, set_phase, log;
    cbn [pointer completed results workers trace].
  - unfold busy in *.
    pose proof (sum_moved holding _ _ _ AwaitThrottle Hw) as Hsum.
    change (holding AwaitThrottle) with 0 in Hsum. lia.
  - rewrite progress_lines_app, Htr, Hprog, tenth_completion. f_equal.
    rewrite progress_lines_app. cbn [progress_lines omap list_omap].
    rewrite app_nil_r. by case_decide.
Qed.

Lemma resume_counted w st st' :
  pool_inv detail total st → counted st →
  resume detail total w st = Some st' → counted st'.
Proof.
  intros HI [Hcnt Hprog] Hres. unfold resume in Hres.
  destruct (workers st !! w) as [ph|] eqn:Hw; [|done].
  pose proof (inv_pointer _ _ _ HI) as Hptr.
  assert (Hstay : ∀ ph' tr, holding ph' = holding ph →
            progress_lines tr = progress_lines (trace st) →
            counted (mkPool (pointer st) (completed st) (results st)
                       (<[w:=ph']> (workers st)) tr)).
  { intros ph' tr Hsame Htr. split; simpl; [|by rewrite Htr].
    unfold busy in *. pose proof (sum_moved holding _ _ _ ph' Hw). lia. }
  assert (Henter : holding ph = 0 → counted (enter_loop total w st)).
  { intros Hidle. unfold enter_loop.
    destruct (Nat.ltb_spec (pointer st) total).
    - split; simpl.
      + unfold busy in *.
        pose proof (sum_moved holding _ _ _ (AwaitFetch (pointer st)) Hw) as Hs.
        change (holding (AwaitFetch (pointer st))) with 1 in Hs. lia.
      + by rewrite progress_lines_app, app_nil_r.
    - by apply Hstay. }
  destruct ph as [|i|i|i| |]; simplify_eq.
  - by apply Henter.
  - destruct (detail i 0); simplify_eq.
    + by apply (after_item_counted w st (AwaitFetch i)).
    + unfold on_failure, set_phase, log; simpl. rewrite Nat.min_l by done.
      apply Hstay; [done|]. by rewrite progress_lines_app, app_nil_r.
  - unfold set_phase, log; simpl.
    apply Hstay; [done|]. by rewrite progress_lines_app, app_nil_r.
  - destruct (detail i 1); simplify_eq.
    + by apply (after_item_counted w st (AwaitRetry i)).
    + apply (after_item_counted w st (AwaitRetry i)); try done.
      unfold log; cbn [trace]. by rewrite progress_lines_app, app_nil_r.
  - by apply Henter.
Qed.

Lemma run_counted schedule : ∀ st,
  pool_inv detail total st → counted st →
  counted (run detail total schedule st).
Proof.
  induction schedule as [|w schedule IH]; intros st HI Hc; [done|].
  simpl. destruct (resume detail total w st) as [st'|] eqn:Hres; simpl.
  - apply IH; [by eapply resume_inv|by eapply resume_counted].
  - by apply IH.
Qed.

Lemma busy_finished st : all_finished st → busy (workers st) = 0.
Proof.
  unfold all_finished, busy. induction 1 as [|ph ws -> _ IH]; [done|].
  simpl. by rewrite IH.
Qed.

(** [completed] counts every item once, however often it was tried: at any
    time it is the number of claimed indices that no worker holds any more;
    a progress line is printed at every tenth completion and at no other
    time; and when all workers have finished, [completed] is [total]. *)
Theorem completed_counter (CONCURRENCY : Z) (schedule : list nat) :
  let st := run detail total schedule (started detail total CONCURRENCY) in
  completed st + busy (workers st) = pointer st
  ∧ progress_lines (trace st) = (λ k, 10 * k) <$> seq 1 (completed st / 10)
  ∧ ((0 < CONCURRENCY)%Z → all_finished st →
       completed st = total ∧ pointer st = total).
Proof.
  intros st.
  assert (Hc : counted st).
  { unfold st, started. apply run_counted; [apply run_inv, created_inv|].
    apply run_counted; [apply created_inv|].
    split; simpl; [|done]. unfold busy.
    induction (pool_size total CONCURRENCY); [done|]. simpl. lia. }
  destruct Hc as [Hcnt Hprog]. split_and!; [done..|].
  intros Hpos Hfin. rewrite (busy_finished _ Hfin) in Hcnt.
  pose proof (started_inv detail total CONCURRENCY schedule) as HI.
  fold st in HI. pose proof (inv_pointer _ _ _ HI).
  destruct (decide (total = 0)) as [->|Hne]; [lia|].
  assert (pointer st = total); [|lia].
  pose proof (started_workers detail total CONCURRENCY schedule) as Hws.
  fold st in Hws.
  destruct (workers st) as [|ph ws] eqn:Hw.
  { simpl in Hws. pose proof (pool_size_pos total CONCURRENCY). lia. }
  apply (inv_finished _ _ _ HI 0). rewrite Hw. simpl.
  unfold all_finished in Hfin. rewrite Hw in Hfin.
  by apply Forall_cons in Hfin as [-> _].
Qed.
End pool_counter.

Lemma completed_counter_witness :
  completed (run sample_detail 3 sample_schedule (started sample_detail 3 2))
  = 3%nat.
Proof.
  destruct (completed_counter sample_detail 3 2 sample_schedule)
    as (_ & _ & Hend).
  apply Hend; [lia|]. vm_compute. repeat constructor.
Defined.

Lemma pool_bounds_witness :
  let st := run sample_detail 3 [1; 0]%nat (started sample_detail 3 2) in
  workers st !! 0%nat = Some AwaitThrottle
  ∧ workers st !! 1%nat = Some (AwaitBackoff 1)
  ∧ results st !! 1%nat = Some Hole.
Proof.
  intros st.
  destruct (pool_bounds sample_detail 3 2 [1; 0]%nat) as (_ & _ & _ & _ & _ & Hheld & _).
  split_and!; [reflexivity|reflexivity|].
  exact (proj2 (Hheld 1%nat (AwaitBackoff 1) 1%nat eq_refl eq_refl)).
Defined.

(** ** More about [main] *)

Lemma run_idle detail total schedule st :
  workers st = [] → run detail total schedule st = st.
Proof.
  intros Hws. induction schedule as [|w schedule IH]; [done|].
  simpl. unfold resume. rewrite Hws. simpl. exact IH.
Qed.

Lemma started_idle detail total CONCURRENCY schedule :
  pool_size total CONCURRENCY = 0%nat →
  run detail total schedule (started detail total CONCURRENCY)
  = created total 0.
Proof.
  intros Hsize. unfold started. rewrite Hsize. simpl.
  by apply run_idle.
Qed.

Lemma payloads_of_holes n : omap slot_payload (replicate n Hole) = [].
Proof. induction n as [|n IH]; [done|]. simpl. exact IH. Qed.

(** The outcome of [main] does not depend on the order in which the event
    loop resumes the workers: two runs that get to the end with the same
    answers from the remote side end with the same exit code and write the
    same dataset. *)
Theorem main_schedule_independent (LIMIT CONCURRENCY : Z)
    (remote : string → Response IndexList)
    (detail : nat → nat → option PokemonEntry)
    (schedule1 schedule2 : list nat) (proc1 proc2 : Process) :
  main LIMIT CONCURRENCY remote detail schedule1 = Some proc1 →
  main LIMIT CONCURRENCY remote detail schedule2 = Some proc2 →
  proc1 = proc2.
Proof.
  unfold main, fetchJson.
  destruct (remote (index_request LIMIT)) as [index| |]; [|congruence..].
  set (total := length (default [] (list_results index))).
  destruct (decide (all_finished (run detail total schedule1 _))) as [Hf1|];
    [|done].
  destruct (decide (all_finished (run detail total schedule2 _))) as [Hf2|];
    [|done].
  intros [= <-] [= <-]. do 2 f_equal.
  destruct (decide (0 < CONCURRENCY)) as [Hc|Hc].
  - by rewrite !(finished_results detail total CONCURRENCY _ Hc).
  - rewrite !started_idle; [done|unfold pool_size; lia..].
Qed.

Lemma main_schedule_independent_witness :
  main 251 2 (λ _, Ok sample_index) sample_detail [0; 1; 0; 1; 0; 1; 0; 1; 0; 1; 0; 1]%nat
  = main 251 2 (λ _, Ok sample_index) sample_detail sample_schedule.
Proof.
  assert (H1 : main 251 2 (λ _, Ok sample_index) sample_detail
                 [0; 1; 0; 1; 0; 1; 0; 1; 0; 1; 0; 1]%nat
               = Some {| exit_code := 0; written := Some [bulbasaur; squirtle] |})
    by (vm_compute; reflexivity).
  assert (H2 : main 251 2 (λ _, Ok sample_index) sample_detail sample_schedule
               = Some {| exit_code := 0; written := Some [bulbasaur; squirtle] |})
    by (vm_compute; reflexivity).
  rewrite H1, H2.
  exact (f_equal Some (main_schedule_independent _ _ _ _ _ _ _ _ H1 H2)).
Defined.

(** With a [CONCURRENCY] of zero or less no worker is created, and with an
    empty index there is nothing to claim: in both cases [main] ends at once
    with exit code 0 and writes the empty array, without any call of
    [fetchPokemonDetail]. *)
Theorem main_nothing_to_fetch (LIMIT CONCURRENCY : Z)
    (remote : string → Response IndexList)
    (detail : nat → nat → option PokemonEntry) (schedule : list nat)
    (index : IndexList) :
  remote (index_request LIMIT) = Ok index →
  CONCURRENCY ≤ 0 ∨ default [] (list_results index) = [] →
  main LIMIT CONCURRENCY remote detail schedule
  = Some {| exit_code := 0; written := Some [] |}
  ∧ trace (run detail (length (default [] (list_results index))) schedule
             (started detail (length (default [] (list_results index)))
                CONCURRENCY)) = [].
Proof.
  intros Hremote Hnone. unfold main, fetchJson. rewrite Hremote.
  set (total := length (default [] (list_results index))).
  assert (Hsize : pool_size total CONCURRENCY = 0%nat).
  { unfold pool_size. destruct Hnone as [?|Hnil]; [lia|].
    unfold total. rewrite Hnil. simpl. lia. }
  rewrite started_idle by done. split; [|done].
  rewrite decide_True by (unfold all_finished; simpl; constructor).
  unfold filteredResults. simpl. by rewrite payloads_of_holes.
Qed.

Lemma main_nothing_to_fetch_witness :
  main 251 0 (λ _, Ok sample_index) sample_detail sample_schedule
  = Some {| exit_code := 0; written := Some [] |}.
Proof.
  apply (main_nothing_to_fetch 251 0 (λ _, Ok sample_index) sample_detail
           sample_schedule sample_index); [reflexivity|left; lia].
Defined.

Lemma payloads_and_failures detail (l : list nat) :
  (length (omap slot_payload (item_slot detail <$> l))
   + length (filter (λ i, detail i 0%nat = None ∧ detail i 1%nat = None) l)
   = length l)%nat.
Proof.
  induction l as [|i l IH]; [done|].
  rewrite fmap_cons, filter_cons. unfold item_slot at 1.
  unfold omap in *.
  case_decide as Hd.
  - destruct Hd as [-> ->]. simpl. lia.
  - destruct (detail i 0%nat) as [p|]; [simpl; lia|].
    destruct (detail i 1%nat) as [p|]; [simpl; lia|].
    by destruct Hd.
Qed.

Lemma main_written LIMIT CONCURRENCY remote detail schedule index proc :
  remote (index_request LIMIT) = Ok index →
  main LIMIT CONCURRENCY remote detail schedule = Some proc →
  0 < CONCURRENCY →
  written proc
  = Some (sort_by (by_key entry_id)
            (omap slot_payload
               (item_slot detail
                <$> seq 0 (length (default [] (list_results index)))))).
Proof.
  intros Hremote Hmain Hc. unfold main, fetchJson in Hmain.
  rewrite Hremote in Hmain.
  set (total := length (default [] (list_results index))) in *.
  destruct (decide (all_finished _)) as [Hfin|]; [|done].
  simplify_eq/=. unfold filteredResults.
  by rewrite (finished_results detail total CONCURRENCY schedule Hc Hfin).
Qed.

(** With at least one worker, the dataset that [main] writes misses exactly
    the items whose two calls both failed: it holds the payload of the first
    call of every item, or else that of its retry, and together with the
    items that failed twice that makes [total]. *)
Theorem dataset_misses_double_failures (LIMIT CONCURRENCY : Z)
    (remote : string → Response IndexList)
    (detail : nat → nat → option PokemonEntry) (schedule : list nat)
    (index : IndexList) (proc : Process) :
  remote (index_request LIMIT) = Ok index →
  main LIMIT CONCURRENCY remote detail schedule = Some proc →
  0 < CONCURRENCY →
  let total := length (default [] (list_results index)) in
  ∃ dataset,
    written proc = Some dataset
    ∧ (length dataset + length (failed_twice detail total) = total)%nat
    ∧ ∀ p, p ∈ dataset ↔
           ∃ i, (i < total)%nat
                ∧ (detail i 0%nat = Some p
                   ∨ detail i 0%nat = None ∧ detail i 1%nat = Some p).
Proof.
  intros Hremote Hmain Hc total.
  pose proof (main_written _ _ _ _ _ _ _ Hremote Hmain Hc) as Hw.
  fold total in Hw. eexists. split; [exact Hw|].
  set (dataset := sort_by _ _).
  assert (Heq : dataset
                = sort_by (by_key entry_id)
                    (omap slot_payload (item_slot detail <$> seq 0 total)))
    by done.
  clearbody dataset. split.
  - rewrite Heq, sort_by_length. unfold failed_twice.
    rewrite payloads_and_failures. apply length_seq.
  - intros p. rewrite Heq, elem_of_sort_by, list_elem_of_omap. split.
    + intros (s & Hs & Hp).
      apply list_elem_of_fmap in Hs as (i & -> & Hi).
      apply elem_of_seq in Hi. exists i. split; [lia|].
      unfold item_slot in Hp.
      destruct (detail i 0%nat); simplify_eq/=; [by left|].
      destruct (detail i 1%nat); simplify_eq/=. by right.
    + intros (i & Hi & Hp). exists (item_slot detail i). split.
      * apply list_elem_of_fmap. exists i. split; [done|].
        apply elem_of_seq. lia.
      * unfold item_slot. by destruct Hp as [->|[-> ->]].
Qed.

Lemma dataset_misses_double_failures_witness :
  ∃ dataset,
    written {| exit_code := 0; written := Some [bulbasaur; squirtle] |}
    = Some dataset
    ∧ (length dataset + length (failed_twice sample_detail 3) = 3)%nat.
Proof.
  destruct (dataset_misses_double_failures 251 2 (λ _, Ok sample_index)
              sample_detail sample_schedule sample_index
              {| exit_code := 0; written := Some [bulbasaur; squirtle] |})
    as (dataset & Hw & Hlen & _);
    [reflexivity|vm_compute; reflexivity|lia|].
  exists dataset. split; [exact Hw|exact Hlen].
Defined.

(** ** Keyboard: arrows, then Enter *)

Lemma filters_down (suggestions : list PokemonEntry) st :
  filters (handleKeyDown suggestions ArrowDown st) = filters st.
Proof. unfold handleKeyDown. by destruct (_ =? _). Qed.

Lemma downs_reach (suggestions : list PokemonEntry) st k :
  highlightedIndex st = None → (k < length suggestions)%nat →
  let st' := Nat.iter (S k) (handleKeyDown suggestions ArrowDown) st in
  highlightedIndex st' = Some (Z.of_nat k) ∧ filters st' = filters st.
Proof.
  intros Hnone Hk.
  assert (Hne : suggestions ≠ [])
    by (destruct suggestions; [simpl in Hk; lia|done]).
  induction k as [|k IH].
  - simpl. rewrite highlight_down, filters_down by (by rewrite ?Hnone).
    by rewrite Hnone.
  - destruct IH as [Hh Hf]; [lia|].
    set (prev := Nat.iter (S k) (handleKeyDown suggestions ArrowDown) st) in *.
    change (Nat.iter (S (S k)) (handleKeyDown suggestions ArrowDown) st)
      with (handleKeyDown suggestions ArrowDown prev).
    simpl. rewrite filters_down, Hf. split; [|done].
    rewrite highlight_down by (rewrite ?Hh; simpl; done || lia).
    rewrite Hh. f_equal.
    destruct (Z.eqb_spec (Z.of_nat k) (Z.of_nat (length suggestions) - 1)); lia.
Qed.

(** From a state without a highlight, pressing ArrowDown [k + 1] times and
    then Enter selects the suggestion at position [k]: its name becomes the
    search term, the other filters stay, and the list closes with no
    highlight left. *)
Theorem arrows_then_enter (suggestions : list PokemonEntry) (st : Explorer)
    (k : nat) (p : PokemonEntry) :
  highlightedIndex st = None → suggestions !! k = Some p →
  handleKeyDown suggestions Enter
    (Nat.iter (S k) (handleKeyDown suggestions ArrowDown) st)
  = {| filters := with_searchTerm (entry_name p) (filters st);
       autocompleteOpen := false; highlightedIndex := None |}.
Proof.
  intros Hnone Hp. pose proof (lookup_lt_Some _ _ _ Hp) as Hk.
  destruct (downs_reach suggestions st k Hnone Hk) as [Hh Hf].
  set (st' := Nat.iter (S k) (handleKeyDown suggestions ArrowDown) st) in *.
  unfold handleKeyDown at 1.
  destruct (Z.eqb_spec (Z.of_nat (length suggestions)) 0); [lia|].
  rewrite Hh. unfold js_index.
  destruct (Z.leb_spec 0 (Z.of_nat k)); [|lia].
  rewrite Nat2Z.id, Hp. unfold handleSuggestionSelect. by rewrite Hf.
Qed.

Lemma arrows_then_enter_witness :
  searchTerm
    (filters
       (handleKeyDown pi_fixture Enter
          (Nat.iter 3 (handleKeyDown pi_fixture ArrowDown)
             {| filters := sample_filters []; autocompleteOpen := false;
                highlightedIndex := None |})))
  = "pikachu"%string.
Proof.
  rewrite (arrows_then_enter pi_fixture _ 2 pikachu); reflexivity.
Defined.

(** ** [normalizeText] *)

Lemma rev_is_reverse {A} (l : list A) : rev l = reverse l.
Proof. unfold reverse. apply rev_alt. Qed.

Lemma collapse_spaces_plain b l :
  Forall (λ c, is_space c → c = " "%char) (collapse_spaces b l).
Proof.
  revert b. induction l as [|c l IH]; intros b; simpl; [constructor|].
  destruct (is_space c) eqn:Hc.
  - destruct b; [apply IH|]. constructor; [done|apply IH].
  - constructor; [|apply IH]. rewrite Hc. done.
Qed.

Lemma blank_control_plain c :
  (is_space c → c = " "%char) →
  (is_space (blank_control c) → blank_control c = " "%char)
  ∧ blank_control c ≠ zero.
Proof.
  intros Hc. unfold blank_control.
  destruct ((nat_of_ascii c =? 12) || (nat_of_ascii c =? 11)
            || (nat_of_ascii c =? 0))%nat eqn:Hn.
  - split; done.
  - split; [done|]. intros ->. done.
Qed.

Lemma drop_space_Forall (P : ascii → Prop) l :
  Forall P l → Forall P (drop_space l).
Proof.
  induction 1 as [|c l Hc Hl IH]; simpl; [constructor|].
  destruct (is_space c); [done|by constructor].
Qed.

Lemma drop_space_head l c : head (drop_space l) = Some c → is_space c = false.
Proof.
  induction l as [|d l IH]; simpl; [done|].
  destruct (is_space d) eqn:Hd; [done|]. by intros [= <-].
Qed.

Lemma drop_space_last l :
  drop_space l ≠ [] → last (drop_space l) = last l.
Proof.
  induction l as [|d l IH]; simpl; [done|].
  destruct (is_space d); [|done]. intros Hne. rewrite IH by done.
  destruct l; [done|]. by rewrite last_cons_cons.
Qed.

Lemma trim_chars s :
  list_ascii_of_string (trim s)
  = rev (drop_space (rev (drop_space (list_ascii_of_string s)))).
Proof. unfold trim. apply list_ascii_of_string_of_list_ascii. Qed.

Lemma trim_ends s c :
  (head (list_ascii_of_string (trim s)) = Some c → is_space c = false)
  ∧ (last (list_ascii_of_string (trim s)) = Some c → is_space c = false).
Proof.
  rewrite trim_chars.
  set (m := drop_space (list_ascii_of_string s)).
  rewrite rev_is_reverse, head_reverse, last_reverse. split.
  - intros Hlast.
    assert (Hne : drop_space (rev m) ≠ []) by (by intros Hnil; rewrite Hnil in Hlast).
    rewrite drop_space_last in Hlast by done.
    rewrite rev_is_reverse, last_reverse in Hlast.
    by apply drop_space_head in Hlast.
  - apply drop_space_head.
Qed.

Lemma normalizeText_plain text :
  Forall (λ c, (is_space c → c = " "%char) ∧ c ≠ zero)
    (list_ascii_of_string (normalizeText text)).
Proof.
  destruct text as [t|]; simpl; [|constructor].
  rewrite trim_chars, list_ascii_of_string_of_list_ascii.
  apply Forall_rev, drop_space_Forall, Forall_rev, drop_space_Forall.
  apply Forall_fmap. eapply Forall_impl; [apply (collapse_spaces_plain false)|].
  intros c Hc. simpl. by apply blank_control_plain.
Qed.

(** The result of [normalizeText] is a single line: none of its characters is
    a tab, a line break, a form feed, a vertical tab or a NUL (every white
    space left is a plain space), and it neither starts nor ends with white
    space; a missing text gives the empty string. *)
Theorem normalizeText_single_line (text : option string) :
  let out := list_ascii_of_string (normalizeText text) in
  Forall (λ c, (is_space c → c = " "%char) ∧ c ≠ zero) out
  ∧ (∀ c, head out = Some c → is_space c = false)
  ∧ (∀ c, last out = Some c → is_space c = false)
  ∧ normalizeText None = ""%string.
Proof.
  split_and!; [apply normalizeText_plain| | |done].
  - destruct text as [t|]; simpl; [|done]. intros c. apply trim_ends.
  - destruct text as [t|]; simpl; [|done]. intros c. apply trim_ends.
Qed.

Lemma normalizeText_single_line_witness :
  last (list_ascii_of_string (normalizeText (Some "Seed  planted. ")))
  = Some "."%char
  ∧ is_space "." = false.
Proof.
  destruct (normalizeText_single_line (Some "Seed  planted. "%string))
    as (_ & _ & Hlast & _).
  split; [reflexivity|]. apply Hlast. reflexivity.
Defined.

(** ** [fetchPokemonDetail] *)

Lemma fetchEvolutionChain_returned remote url tr nodes :
  fetchEvolutionChain remote url = (tr, Returned nodes) →
  tr = request_for url ∧ ∃ node, nodes = traverse node 0 [].
Proof.
  unfold fetchEvolutionChain, fetchJson, request_for.
  destruct (url_truthy url) as [u|]; simpl.
  - destruct (remote u) as [data| |]; simpl; [|done..].
    intros [= <- <-]. split; [done|]. by exists (chain data).
  - intros [= <- <-]. split; [done|]. by exists LinkNull.
Qed.

Lemma fetchLocations_returned remote url tr locs :
  fetchLocations remote url = (tr, Returned locs) →
  tr = request_for url ∧ ∃ data, locs = (collect data [] 0).1.
Proof.
  unfold fetchLocations, fetchJson, request_for.
  destruct (url_truthy url) as [u|]; simpl.
  - destruct (remote u) as [data| |]; simpl; [|done..].
    intros [= <- <-]. split; [done|]. by exists data.
  - intros [= <- <-]. split; [done|]. by exists [].
Qed.

Lemma request_for_length url : (length (request_for url) ≤ 1)%nat.
Proof. unfold request_for. destruct (url_truthy url); simpl; lia. Qed.

Lemma helper_trace_length_chain remote url :
  (length (fetchEvolutionChain remote url).1 ≤ 1)%nat.
Proof.
  unfold fetchEvolutionChain, fetchJson.
  destruct (url_truthy url) as [u|]; simpl; [|lia].
  destruct (remote u); simpl; lia.
Qed.

Lemma helper_trace_length_locations remote url :
  (length (fetchLocations remote url).1 ≤ 1)%nat.
Proof.
  unfold fetchLocations, fetchJson.
  destruct (url_truthy url) as [u|]; simpl; [|lia].
  destruct (remote u); simpl; lia.
Qed.

(** [fetchPokemonDetail] step by step. *)
Lemma fetchPokemonDetail_steps remote entry :
  fetchPokemonDetail remote entry
  = match remote_base remote (index_url entry) with
    | NotOk status statusText =>
        ([EvFetch (index_url entry)],
         Thrown (fetch_error (index_url entry) status statusText))
    | Rejected message => ([EvFetch (index_url entry)], Thrown message)
    | Ok b =>
        match url_truthy (base_species_url b) with
        | None =>
            ([EvFetch (index_url entry)],
             Thrown ("Failed to parse URL from "
                     +:+ url_text (base_species_url b)))
        | Some su =>
            match remote_species remote su with
            | NotOk status statusText =>
                ([EvFetch (index_url entry); EvFetch su],
                 Thrown (fetch_error su status statusText))
            | Rejected message =>
                ([EvFetch (index_url entry); EvFetch su], Thrown message)
            | Ok sp =>
                let c := fetchEvolutionChain (remote_chain remote)
                           (evolution_chain_url sp) in
                let l := fetchLocations (remote_encounters remote)
                           (location_area_encounters b) in
                match c.2 with
                | Thrown e =>
                    ([EvFetch (index_url entry); EvFetch su] ++ c.1, Thrown e)
                | Returned nodes =>
                    ([EvFetch (index_url entry); EvFetch su] ++ c.1 ++ l.1,
                     match l.2 with
                     | Thrown e => Thrown e
                     | Returned locs => Returned (payload_of b sp nodes locs)
                     end)
                end
            end
        end
    end.
Proof.
  unfold fetchPokemonDetail, fetchJson at 1.
  destruct (remote_base remote (index_url entry)) as [b| |]; simpl; [|done..].
  unfold fetchJson_at, fetchJson.
  destruct (url_truthy (base_species_url b)) as [su|]; simpl; [|done].
  destruct (remote_species remote su) as [sp| |]; simpl; [|done..].
  destruct (fetchEvolutionChain (remote_chain remote) (evolution_chain_url sp))
    as [tr1 [nodes|e]]; simpl; [|done].
  destruct (fetchLocations (remote_encounters remote)
              (location_area_encounters b)) as [tr2 [locs|e]]; simpl;
    by rewrite ?app_nil_r.
Qed.

(** What a returned payload comes from. *)
Lemma fetchPokemonDetail_returned remote entry p :
  (fetchPokemonDetail remote entry).2 = Returned p →
  ∃ b sp su nodes locs,
    remote_base remote (index_url entry) = Ok b
    ∧ url_truthy (base_species_url b) = Some su
    ∧ remote_species remote su = Ok sp
    ∧ fetchEvolutionChain (remote_chain remote) (evolution_chain_url sp)
      = (request_for (evolution_chain_url sp), Returned nodes)
    ∧ fetchLocations (remote_encounters remote) (location_area_encounters b)
      = (request_for (location_area_encounters b), Returned locs)
    ∧ p = payload_of b sp nodes locs
    ∧ (fetchPokemonDetail remote entry).1
      = [EvFetch (index_url entry); EvFetch su]
        ++ request_for (evolution_chain_url sp)
        ++ request_for (location_area_encounters b).
Proof.
  rewrite fetchPokemonDetail_steps.
  destruct (remote_base remote (index_url entry)) as [b| |] eqn:Hb; [|done..].
  destruct (url_truthy (base_species_url b)) as [su|] eqn:Hsu; [|done].
  destruct (remote_species remote su) as [sp| |] eqn:Hsp; [|done..].
  destruct (fetchEvolutionChain (remote_chain remote) (evolution_chain_url sp))
    as [tr1 [nodes|e]] eqn:Hchain; simpl; [|done].
  destruct (fetchLocations (remote_encounters remote)
              (location_area_encounters b)) as [tr2 [locs|e]] eqn:Hlocs;
    simpl; [|done].
  intros [= <-].
  destruct (fetchEvolutionChain_returned _ _ _ _ Hchain) as [-> _].
  destruct (fetchLocations_returned _ _ _ _ Hlocs) as [-> _].
  by exists b, sp, su, nodes, locs.
Qed.

(** [fetchPokemonDetail] asks for the detail of the entry first and makes at
    most four requests.  When the first response is not ok it throws, after
    that one request, the error of [fetchJson] with the URL, the status and
    the status text in its message; a rejected first request is passed on;
    and a detail without a species URL makes the second [fetch] fail before
    anything is requested.  When it returns a payload, it has asked for the
    detail, then the species at the URL the detail names, then the evolution
    chain and the encounters, each only if its URL is there, in this
    order. *)
Theorem fetchPokemonDetail_requests (remote : Remote) (entry : IndexEntry) :
  let r := fetchPokemonDetail remote entry in
  head r.1 = Some (EvFetch (index_url entry))
  ∧ (length r.1 ≤ 4)%nat
  ∧ (∀ status statusText,
       remote_base remote (index_url entry) = NotOk status statusText →
       r = ([EvFetch (index_url entry)],
            Thrown ("Failed to fetch " +:+ index_url entry +:+ ": "
                    +:+ pretty status +:+ " " +:+ statusText)))
  ∧ (∀ message,
       remote_base remote (index_url entry) = Rejected message →
       r = ([EvFetch (index_url entry)], Thrown message))
  ∧ (∀ b,
       remote_base remote (index_url entry) = Ok b →
       url_truthy (base_species_url b) = None →
       r = ([EvFetch (index_url entry)],
            Thrown ("Failed to parse URL from "
                    +:+ url_text (base_species_url b))))
  ∧ (∀ p, r.2 = Returned p →
       ∃ b sp su,
         remote_base remote (index_url entry) = Ok b
         ∧ url_truthy (base_species_url b) = Some su
         ∧ remote_species remote su = Ok sp
         ∧ r.1 = [EvFetch (index_url entry); EvFetch su]
                 ++ request_for (evolution_chain_url sp)
                 ++ request_for (location_area_encounters b)).
Proof.
  intros r.
  assert (Hshape : head r.1 = Some (EvFetch (index_url entry))
                   ∧ (length r.1 ≤ 4)%nat).
  { unfold r. rewrite fetchPokemonDetail_steps.
    destruct (remote_base remote (index_url entry)) as [b| |];
      [|simpl; split; [done|lia]..].
    destruct (url_truthy (base_species_url b)) as [su|];
      [|simpl; split; [done|lia]].
    destruct (remote_species remote su) as [sp| |];
      [|simpl; split; [done|lia]..].
    pose proof (helper_trace_length_chain (remote_chain remote)
                  (evolution_chain_url sp)) as H1.
    pose proof (helper_trace_length_locations (remote_encounters remote)
                  (location_area_encounters b)) as H2.
    destruct (fetchEvolutionChain _ _) as [tr1 [nodes|e]]; simpl in *.
    - split; [done|]. rewrite length_app. lia.
    - split; [done|]. lia. }
  split_and!; [apply Hshape..| | | |].
  - intros status statusText Hbase. unfold r.
    rewrite fetchPokemonDetail_steps. by rewrite Hbase.
  - intros message Hbase. unfold r.
    rewrite fetchPokemonDetail_steps. by rewrite Hbase.
  - intros b Hbase Hurl. unfold r.
    rewrite fetchPokemonDetail_steps. by rewrite Hbase, Hurl.
  - intros p Hp.
    destruct (fetchPokemonDetail_returned _ _ _ Hp)
      as (b & sp & su & nodes & locs & Hb & Hsu & Hsp & _ & _ & _ & Htr).
    by exists b, sp, su.
Qed.

Lemma fetchPokemonDetail_requests_witness :
  fetchPokemonDetail unavailable bulbasaur_entry
  = ([EvFetch "https://pokeapi.co/api/v2/pokemon/1/"],
     Thrown
       "Failed to fetch https://pokeapi.co/api/v2/pokemon/1/: 503 Service Unavailable")
  ∧ fetchPokemonDetail orphan_remote bulbasaur_entry
    = ([EvFetch "https://pokeapi.co/api/v2/pokemon/1/"],
       Thrown "Failed to parse URL from undefined").
Proof.
  destruct (fetchPokemonDetail_requests unavailable bulbasaur_entry)
    as (_ & _ & Hfail & _).
  destruct (fetchPokemonDetail_requests orphan_remote bulbasaur_entry)
    as (_ & _ & _ & _ & Hurl & _).
  split.
  - exact (Hfail 503 "Service Unavailable"%string eq_refl).
  - exact (Hurl orphan_base eq_refl eq_refl).
Defined.

(** What the consumers of the dataset can rely on in a payload that
    [fetchPokemonDetail] returns: the identifier and name of the detail; no
    empty type; no ability or stat dropped; at most 50 moves, all named; at
    most 12 locations, all different and without hyphens; an evolution chain
    whose stages leave no gap; and a flavor text on a single line. *)
Theorem fetchPokemonDetail_payload (remote : Remote) (entry : IndexEntry)
    (p : PokemonEntry) :
  (fetchPokemonDetail remote entry).2 = Returned p →
  (∃ b, remote_base remote (index_url entry) = Ok b
        ∧ entry_id p = base_id b ∧ entry_name p = base_name b
        ∧ length (abilities p) = length (default [] (base_abilities b))
        ∧ length (stats p) = length (default [] (base_stats b)))
  ∧ Forall (λ t, truthy t) (types p)
  ∧ (length (moves p) ≤ 50)%nat
  ∧ Forall (λ m, truthy (move_name m)) (moves p)
  ∧ (length (locations p) ≤ 12)%nat
  ∧ NoDup (locations p)
  ∧ Forall (λ l, "-"%char ∉ list_ascii_of_string l) (locations p)
  ∧ (∀ e j, e ∈ evolutionChain p → (j ≤ stage e)%nat →
            ∃ e', e' ∈ evolutionChain p ∧ stage e' = j)
  ∧ Forall (λ c, (is_space c → c = " "%char) ∧ c ≠ zero)
      (list_ascii_of_string (flavorText p)).
Proof.
  intros Hp.
  destruct (fetchPokemonDetail_returned _ _ _ Hp)
    as (b & sp & su & nodes & locs & Hb & _ & _ & Hchain & Hlocs & -> & _).
  apply fetchEvolutionChain_returned in Hchain as [_ [node ->]].
  apply fetchLocations_returned in Hlocs as [_ [data ->]].
  destruct (collect_result data) as (_ & Hnd & Hlen).
  split_and!.
  - exists b. simpl. split_and!; try done.
    + destruct (base_abilities b); simpl; [by rewrite length_fmap|done].
    + destruct (base_stats b); simpl; [by rewrite length_fmap|done].
  - simpl. unfold extractTypes. apply Forall_forall. intros t Ht.
    apply list_elem_of_filter in Ht. tauto.
  - simpl. apply extractMoves_length.
  - simpl. apply Forall_forall. intros m Hm.
    by destruct (extractMoves_member _ _ Hm).
  - done.
  - done.
  - simpl. apply Forall_forall. intros l Hl.
    by destruct (collected_from_entries data l Hl).
  - simpl. intros e j. apply traverse_contiguous.
  - simpl flavorText. apply (normalizeText_plain (Some _)).
Qed.

Lemma fetchPokemonDetail_payload_witness :
  ∃ p, (fetchPokemonDetail sample_remote bulbasaur_entry).2 = Returned p
       ∧ types p = ["grass"; "poison"]%string
       ∧ Forall (λ t, truthy t) (types p).
Proof.
  exists (payload_of bulbasaur_base bulbasaur_species [] []).
  assert (Hp : (fetchPokemonDetail sample_remote bulbasaur_entry).2
               = Returned (payload_of bulbasaur_base bulbasaur_species [] []))
    by reflexivity.
  destruct (fetchPokemonDetail_payload _ _ _ Hp) as (_ & Htypes & _).
  split_and!; [exact Hp|reflexivity|exact Htypes].
Defined.

Lemma activeFiltersCount_zero_witness :
  activeFiltersCount (sample_filters []) = 0%nat
  ∧ activeFiltersCount (with_searchTerm "  pika " (sample_filters ["fire"]%string))
    = 2%nat.
Proof.
  destruct (activeFiltersCount_zero (sample_filters [])
              {| filters := sample_filters []; autocompleteOpen := true;
                 highlightedIndex := None |}) as (Hzero & _ & _).
  split; [|reflexivity]. apply Hzero; [reflexivity|]. split_and!; try done.
  constructor.
Defined.
